(** * ShareUnixIA backend: the chat relay of [back.js]

    A shallow embedding of the request handler [app.post("/api/together-ai")]
    and of its helpers [cleanUserMessage] and [buildMessagesForTogether],
    with the properties of the relay proved over it.

    JavaScript strings are sequences of UTF-16 code units; they are modelled
    as lists of [N].  The two process-wide objects of the module, the object
    [chatMemory] and the set [sessionsInProcess], are modelled with stdpp's
    [gmap] and [gset]; the arrays stored in [chatMemory] live in a heap of
    their own, because the handler appends to them through the alias
    [sessionHistory]. *)

From Stdlib Require Import NArith String Ascii List Lia Bool.
From stdpp Require Import base list gmap sets.

Set Default Proof Using "Type".
Local Open Scope N_scope.

(** ** JavaScript strings *)

Module JsString.

(** A string value: its UTF-16 code units, in order. *)
Abbreviation js_string := (list N).

(** The source file is UTF-8.  A literal of the source is written here as a
    Rocq string (the same bytes) and decoded into code units; every literal of
    [back.js] that is embedded lies in U+0000..U+07FF, so one- and two-byte
    sequences are all that [decode_utf8] has to read. *)
Fixpoint decode_utf8 (bytes : list N) : js_string :=
  match bytes with
  | [] => []
  | b :: rest =>
      if (192 <=? b) && (b <? 224) then
        match rest with
        | b1 :: rest' => ((b - 192) * 64 + (b1 - 128)) :: decode_utf8 rest'
        | [] => [b]
        end
      else b :: decode_utf8 rest
  end.

Definition lit (s : string) : js_string :=
  decode_utf8 (map N_of_ascii (list_ascii_of_string s)).

(** [WhiteSpace] and [LineTerminator] of ECMAScript, the code points that
    [String.prototype.trim] strips. *)
Definition isWhiteSpace (c : N) : bool :=
  ((9 <=? c) && (c <=? 13))          (* TAB, LF, VT, FF, CR *)
  || (c =? 32) || (c =? 160)         (* SP, NBSP *)
  || (c =? 5760)                     (* U+1680 *)
  || ((8192 <=? c) && (c <=? 8202))  (* U+2000..U+200A *)
  || (c =? 8232) || (c =? 8233)      (* U+2028, U+2029 *)
  || (c =? 8239) || (c =? 8287)      (* U+202F, U+205F *)
  || (c =? 12288) || (c =? 65279).   (* U+3000, U+FEFF *)

Fixpoint trimStart (s : js_string) : js_string :=
  match s with
  | [] => []
  | c :: rest => if isWhiteSpace c then trimStart rest else s
  end.

Definition trimEnd (s : js_string) : js_string := rev (trimStart (rev s)).

(** [String.prototype.trim]. *)
Definition trim (s : js_string) : js_string := trimEnd (trimStart s).

(** A JavaScript string is falsy exactly when it is empty. *)
Definition truthy_string (s : js_string) : bool :=
  match s with [] => false | _ :: _ => true end.

(** *** [JSON.stringify] on a string ([QuoteJSONString]) *)

Definition hex_digit (d : N) : N := if d <? 10 then 48 + d else 87 + d.

(** [\uXXXX] with four lower-case hexadecimal digits. *)
Definition unicode_escape (c : N) : js_string :=
  [92; 117; hex_digit (c / 4096 mod 16); hex_digit (c / 256 mod 16);
   hex_digit (c / 16 mod 16); hex_digit (c mod 16)].

Definition is_high_surrogate (c : N) : bool := (55296 <=? c) && (c <=? 56319).
Definition is_low_surrogate (c : N) : bool := (56320 <=? c) && (c <=? 57343).

(** One code unit that is not part of a surrogate pair. *)
Definition quote_unit (c : N) : js_string :=
  if c =? 8 then [92; 98]            (* \b *)
  else if c =? 9 then [92; 116]      (* \t *)
  else if c =? 10 then [92; 110]     (* \n *)
  else if c =? 12 then [92; 102]     (* \f *)
  else if c =? 13 then [92; 114]     (* \r *)
  else if c =? 34 then [92; 34]      (* backslash, quote *)
  else if c =? 92 then [92; 92]      (* backslash, backslash *)
  else if c <? 32 then unicode_escape c
  else if is_high_surrogate c || is_low_surrogate c then unicode_escape c
  else [c].

(** The string is read by code points: a high surrogate followed by a low one
    is one code point and is copied, a lone surrogate is escaped. *)
Fixpoint quote_units (s : js_string) : js_string :=
  match s with
  | [] => []
  | c :: rest =>
      if is_high_surrogate c then
        match rest with
        | d :: rest' =>
            if is_low_surrogate d then c :: d :: quote_units rest'
            else quote_unit c ++ quote_units rest
        | [] => quote_unit c
        end
      else quote_unit c ++ quote_units rest
  end.

Definition quoteJSONString (s : js_string) : js_string :=
  [34] ++ quote_units s ++ [34].

(** [JSON.stringify({ key: value })] for an object with one string-valued
    property whose name needs no escaping. *)
Definition stringify_singleton (key value : js_string) : js_string :=
  lit "{" ++ [34] ++ key ++ [34] ++ lit ":" ++ quoteJSONString value ++ lit "}".

End JsString.

Import JsString.

(** ** The message sanitizer: [cleanUserMessage] *)

Module Sanitizer.

Definition is_ascii_upper (c : N) : bool := (65 <=? c) && (c <=? 90).
Definition is_ascii_lower (c : N) : bool := (97 <=? c) && (c <=? 122).
Definition is_digit (c : N) : bool := (48 <=? c) && (c <=? 57).

(** The class [\w] of a pattern without the [u] flag: [A-Za-z0-9_]. *)
Definition is_word_char (c : N) : bool :=
  is_ascii_upper c || is_ascii_lower c || is_digit c || (c =? 95).

(** The class [[\w.-]]. *)
Definition is_handle_char (c : N) : bool :=
  is_word_char c || (c =? 46) || (c =? 45).

(** [Canonicalize] of a pattern with the [i] flag and without the [u] flag
    maps a code unit to its upper-case form (when that is one code unit, and
    never from outside ASCII into ASCII).  The labels of the first pattern
    are made of ASCII letters, the space, the colon and U+00F3; on the code
    units that can be compared equal to one of those this definition agrees
    with the full table, and that is all [match_label] uses it for. *)
Definition canonicalize (c : N) : N :=
  if is_ascii_lower c then c - 32
  else if c =? 243 then 211
  else c.

(** The alternatives of the first pattern, in the order they are tried. *)
Definition role_markers : list js_string :=
  [ lit "Usuario:"; lit "Asistente:"; lit "Assistant:";
    lit "Pregunta del Usuario:"; lit "Respuesta:"; lit "Interacción:" ].

(** A label matched at the start of [s], ignoring case: what remains of [s]
    after it. *)
Fixpoint match_label (label s : js_string) : option js_string :=
  match label, s with
  | [], _ => Some s
  | p :: label', c :: s' =>
      if canonicalize c =? canonicalize p then match_label label' s' else None
  | _ :: _, [] => None
  end.

(** The first alternative that matches at the start of [s]: the length of
    the match. *)
Fixpoint match_alternatives (alts : list js_string) (s : js_string) : option nat :=
  match alts with
  | [] => None
  | label :: alts' =>
      match match_label label s with
      | Some _ => Some (length label)
      | None => match_alternatives alts' s
      end
  end.

Definition marker_match (s : js_string) : option nat :=
  match_alternatives role_markers s.

(** The length of the longest prefix of handle characters. *)
Fixpoint handle_run (s : js_string) : nat :=
  match s with
  | [] => O
  | c :: rest => if is_handle_char c then S (handle_run rest) else O
  end.

(** [@[\w.-]+] at the start of [s]: the quantifier is greedy and nothing
    follows it, so the match is the [@] and the whole run. *)
Definition mention_match (s : js_string) : option nat :=
  match s with
  | c :: rest =>
      if c =? 64 then
        match handle_run rest with
        | O => None
        | S n => Some (S (S n))
        end
      else None
  | [] => None
  end.

(** [s.replace(/re/g, "")]: the string is scanned from the left; where the
    pattern matches, the match is dropped and the scan resumes after it,
    elsewhere the code unit is kept.  [skip] counts the code units of the
    current match that are still to be dropped.  (Neither pattern matches the
    empty string; an empty match would keep the code unit and move on.) *)
Fixpoint replaceAll (matcher : js_string -> option nat) (skip : nat)
    (s : js_string) : js_string :=
  match s with
  | [] => []
  | c :: rest =>
      match skip with
      | S k => replaceAll matcher k rest
      | O =>
          match matcher s with
          | Some (S k) => replaceAll matcher k rest
          | Some O | None => c :: replaceAll matcher O rest
          end
      end
  end.

Definition remove_markers (s : js_string) : js_string := replaceAll marker_match O s.
Definition remove_mentions (s : js_string) : js_string := replaceAll mention_match O s.

(** [cleanUserMessage(msg)] for a string [msg]. *)
Definition cleanUserMessage (msg : js_string) : js_string :=
  trim (remove_mentions (remove_markers msg)).

(** *** Occurrences, for stating what the sanitizer removes *)

(** The pattern matches at some position of [s]. *)
Fixpoint occurs (matcher : js_string -> option nat) (s : js_string) : bool :=
  match s with
  | [] => false
  | _ :: rest =>
      match matcher s with
      | Some _ => true
      | None => occurs matcher rest
      end
  end.

Definition has_marker (s : js_string) : bool := occurs marker_match s.
Definition has_mention (s : js_string) : bool := occurs mention_match s.

(** [w] is [label] up to case. *)
Definition spells (label w : js_string) : bool :=
  match match_label label w with
  | Some [] => true
  | _ => false
  end.

(** [w] is one of the role markers, in any mix of cases. *)
Definition is_marker (w : js_string) : bool :=
  existsb (fun label => spells label w) role_markers.

(** The index of the first colon of [s]. *)
Fixpoint first_colon (s : js_string) : option nat :=
  match s with
  | [] => None
  | c :: rest => if c =? 58 then Some O else S <$> first_colon rest
  end.

(** The label ends with a colon and has no other. *)
Fixpoint colon_terminated (label : js_string) : bool :=
  match label with
  | [] => false
  | p :: rest =>
      match rest with
      | [] => p =? 58
      | _ :: _ => negb (canonicalize p =? 58) && colon_terminated rest
      end
  end.

End Sanitizer.

Import Sanitizer.

(** ** Values, errors and the HTTP response *)

Module Js.

(** A value of a parsed JSON body, as far as the handler looks at it.  A
    number is modelled by an integer: the handler only tests whether it is
    zero.  [JsObject] stands for any array or object. *)
Inductive JsValue :=
  | JsUndefined
  | JsNull
  | JsBool (b : bool)
  | JsNumber (n : Z)
  | JsString (s : js_string)
  | JsObject.

(** [ToBoolean]. *)
Definition truthy (v : JsValue) : bool :=
  match v with
  | JsUndefined | JsNull => false
  | JsBool b => b
  | JsNumber n => negb (Z.eqb n 0)
  | JsString s => truthy_string s
  | JsObject => true
  end.

(** A thrown [Error]: the handler reads its [message] only. *)
Record JsError := mkError { error_message : option js_string }.

Definition TypeError (text : string) : JsError := mkError (Some (lit text)).

(** A computation that returns normally or throws. *)
Inductive Completion (A : Type) :=
  | Normal (a : A)
  | Throw (e : JsError).
Arguments Normal {A} a.
Arguments Throw {A} e.

(** [x || fallback] on an optional string. *)
Definition or_default (x : option js_string) (fallback : js_string) : js_string :=
  match x with
  | Some s => if truthy_string s then s else fallback
  | None => fallback
  end.

End Js.

Import Js.

Module Http.

(** The response object [res] of one request: what has been set and written
    so far.  [written] lists the body chunks in the order of the calls that
    wrote them, one element per call. *)
Record Response := mkResponse {
  statusCode : N;
  headers : list (js_string * js_string);
  headersSent : bool;
  written : list js_string;
  writableEnded : bool
}.

Definition new_response : Response :=
  mkResponse 200 [] false [] false.

(** [res.status(code)]. *)
Definition status (code : N) (res : Response) : Response :=
  mkResponse code (headers res) (headersSent res) (written res) (writableEnded res).

(** [res.writeHead(code, hdrs)]: from here on [res.headersSent] is true. *)
Definition writeHead (code : N) (hdrs : list (js_string * js_string))
    (res : Response) : Response :=
  mkResponse code (headers res ++ hdrs) true (written res) (writableEnded res).

(** [res.write(chunk)]. *)
Definition write (chunk : js_string) (res : Response) : Response :=
  mkResponse (statusCode res) (headers res) true (written res ++ [chunk])
    (writableEnded res).

(** [res.end()]. *)
Definition end_ (res : Response) : Response :=
  mkResponse (statusCode res) (headers res) true (written res) true.

(** [res.json({ error: text })]: the serialized object is the whole body and
    the response is finished. *)
Definition json_error (text : js_string) (res : Response) : Response :=
  mkResponse (statusCode res)
    (headers res ++ [(lit "Content-Type", lit "application/json; charset=utf-8")])
    true
    (written res ++ [stringify_singleton (lit "error") text])
    true.

Definition event_stream_headers : list (js_string * js_string) :=
  [ (lit "Content-Type", lit "text/event-stream");
    (lit "Cache-Control", lit "no-cache");
    (lit "Connection", lit "keep-alive") ].

(** The response is an event stream: the streaming head has been set. *)
Definition is_event_stream (res : Response) : bool :=
  bool_decide ((lit "Content-Type", lit "text/event-stream") ∈ headers res).

(** The response is a single JSON document [{ error: text }] under [code]. *)
Definition is_json_error (code : N) (text : js_string) (res : Response) : Prop :=
  statusCode res = code
  /\ headers res = [(lit "Content-Type", lit "application/json; charset=utf-8")]
  /\ written res = [stringify_singleton (lit "error") text]
  /\ writableEnded res = true.

End Http.

Import Http.

(** ** The relay: [app.post("/api/together-ai")] *)

Module Relay.

Inductive Role := system | user | assistant.

(** An object [{ role, content }]: a turn of a session history and a message
    of the completion request alike. *)
Record Message := mkMessage { role : Role; content : js_string }.

#[global] Instance Role_eq_dec : EqDecision Role.
Proof. solve_decision. Defined.
#[global] Instance Message_eq_dec : EqDecision Message.
Proof. solve_decision. Defined.

Definition join_lines (lines : list js_string) : js_string :=
  match lines with
  | [] => []
  | l :: ls => l ++ concat (map (fun x => 10 :: x) ls)
  end.

(** The template literal [systemPrompt] of [buildMessagesForTogether]. *)
Definition systemPrompt : js_string :=
  join_lines
    [ lit "Eres ShareUnixIA, un asistente virtual bancario profesional. IMPORTANTE:";
      lit "- Pregunta siempre al comenzar el nombre del usuario y no eres un inicio de sesión.";
      lit "-IMPORTANTE: Solo responde a preguntas relacionadas con el banco si te pregunta algo no relaciona a un banco no lo respondas ignoralo.";
      lit "- No saludes ni digas frases como " ++ [34] ++ lit "Estoy listo para ayudarte" ++ [34] ++ lit ".";
      lit "- Responde solo lo que se pide, sin saludos ni despedidas.";
      lit "- No uses etiquetas ni formatos como <think>, HTML o Markdown.";
      lit "- No repitas respuestas ni uses bloques de código.";
      lit "- Responde en texto plano, en español neutro, sin palabras extranjeras.";
      lit "- Máximo 2 oraciones claras y concisas.";
      lit "- No des explicaciones ni contexto extra.";
      lit "- Corrige errores ortográficos sin mencionarlo.";
      lit "- No asumas información no preguntada.";
      lit "- Si se piden instrucciones, usa hasta 5 pasos claros y breves.";
      lit "- Saluda solo en la primera interacción si es necesario, pero evita frases innecesarias.";
      lit "- No interpretes símbolos especiales como comandos." ].

(** [buildMessagesForTogether(history, newMessage)] for an array [history]. *)
Definition buildMessagesForTogether (history : list Message)
    (newMessage : js_string) : list Message :=
  [mkMessage system systemPrompt]
  ++ map (fun turn => mkMessage (role turn) (content turn)) history
  ++ [mkMessage user newMessage].

(** [cleanUserMessage(msg)] for any value [msg]: only a string has a method
    [replace]. *)
Definition cleanUserMessage_value (msg : JsValue) : Completion js_string :=
  match msg with
  | JsString s => Normal (cleanUserMessage s)
  | JsUndefined =>
      Throw (TypeError "Cannot read properties of undefined (reading 'replace')")
  | JsNull =>
      Throw (TypeError "Cannot read properties of null (reading 'replace')")
  | JsBool _ | JsNumber _ | JsObject =>
      Throw (TypeError "msg.replace is not a function")
  end.

(** *** The module state *)

(** [arrays] is the heap of the history arrays: an array is referred to by
    its index, and is never freed.  [chatMemory] holds the own properties of
    the object of that name, each a reference to an array. *)
Record State := mkState {
  arrays : list (list Message);
  chatMemory : gmap js_string nat;
  sessionsInProcess : gset js_string
}.

Definition initial_state : State := mkState [] ∅ ∅.

(** The names that every object literal inherits from [Object.prototype]. *)
Definition object_prototype_keys : list js_string :=
  map lit
    [ "constructor"; "__defineGetter__"; "__defineSetter__"; "hasOwnProperty";
      "__lookupGetter__"; "__lookupSetter__"; "isPrototypeOf";
      "propertyIsEnumerable"; "toString"; "valueOf"; "__proto__";
      "toLocaleString" ]%string.

(** What [chatMemory[key]] evaluates to: a history array, or one of the
    inherited values (functions, and the prototype itself), which are truthy
    and not iterable. *)
Inductive Property :=
  | ArrayRef (l : nat)
  | Inherited.

#[global] Instance Property_eq_dec : EqDecision Property.
Proof. solve_decision. Defined.

Definition chatMemory_get (key : js_string) (st : State) : option Property :=
  match chatMemory st !! key with
  | Some l => Some (ArrayRef l)
  | None =>
      if bool_decide (key ∈ object_prototype_keys) then Some Inherited else None
  end.

(** [if (!chatMemory[key]) chatMemory[key] = [];] *)
Definition init_session (key : js_string) (st : State) : State :=
  match chatMemory_get key st with
  | Some _ => st
  | None =>
      mkState (arrays st ++ [[]]) (<[key := length (arrays st)]> (chatMemory st))
        (sessionsInProcess st)
  end.

(** [array.push(turn)] through a reference. *)
Definition push (l : nat) (turn : Message) (st : State) : State :=
  mkState (alter (fun a => a ++ [turn]) l (arrays st)) (chatMemory st)
    (sessionsInProcess st).

Definition lock (key : js_string) (st : State) : State :=
  mkState (arrays st) (chatMemory st) ({[key]} ∪ sessionsInProcess st).

(** [sessionsInProcess.delete(key)]. *)
Definition unlock (key : js_string) (st : State) : State :=
  mkState (arrays st) (chatMemory st) (sessionsInProcess st ∖ {[key]}).

Definition isLocked (key : js_string) (st : State) : bool :=
  bool_decide (key ∈ sessionsInProcess st).

(** The history of a session: the array its own property refers to, and the
    empty sequence for a session that has none. *)
Definition getHistory (key : js_string) (st : State) : list Message :=
  match chatMemory st !! key with
  | Some l => default [] (arrays st !! l)
  | None => []
  end.

(** *** Requests and upstream chunks *)

(** [req.body]: [message] is any JSON value (or absent); [sessionId] is the
    optional string of the endpoint's interface. *)
Record Body := mkBody { message : JsValue; sessionId : option js_string }.

(** [sessionId || "default"]. *)
Definition currentSessionId (body : Body) : js_string :=
  or_default (sessionId body) (lit "default").

Record Delta := mkDelta { delta_content : option js_string }.
Record Choice := mkChoice { delta : option Delta }.

(** A chunk of the upstream stream.  [choices] may be missing, and an element
    of it may be [null]. *)
Record Chunk := mkChunk { choices : option (list (option Choice)) }.

(** The condition of the loop body and the [content] it binds:
    [chunk.choices && chunk.choices.length > 0 && chunk.choices[0].delta
     && chunk.choices[0].delta.content]. *)
Definition chunk_content (chunk : Chunk) : Completion (option js_string) :=
  match choices chunk with
  | None => Normal None
  | Some [] => Normal None
  | Some (None :: _) =>
      Throw (TypeError "Cannot read properties of null (reading 'delta')")
  | Some (Some choice :: _) =>
      match delta choice with
      | None => Normal None
      | Some d =>
          match delta_content d with
          | Some text => if truthy_string text then Normal (Some text) else Normal None
          | None => Normal None
          end
      end
  end.

(** A chunk that carries the delta [text] and nothing else. *)
Definition text_chunk (text : js_string) : Chunk :=
  mkChunk (Some [Some (mkChoice (Some (mkDelta (Some text))))]).

(** *** Texts and frames written by the handler *)

Definition busy_text : js_string :=
  lit "Ya se está procesando una respuesta para esta sesión. Por favor, espere.".
Definition no_message_text : js_string :=
  lit "No se proporcionó ningún mensaje.".
Definition internal_error_text : js_string :=
  lit "Error interno del servidor al procesar la solicitud con Together AI.".
Definition stream_error_text : js_string :=
  lit "Error desconocido en el stream.".

(** [`data: ${JSON.stringify({ response: content })}\n\n`] *)
Definition data_frame (content : js_string) : js_string :=
  lit "data: " ++ stringify_singleton (lit "response") content ++ [10; 10].

(** ['data: [DONE]\n\n'] *)
Definition done_frame : js_string := lit "data: [DONE]" ++ [10; 10].

(** [`event: error\ndata: ${JSON.stringify({ error: text })}\n\n`] *)
Definition error_frame (text : js_string) : js_string :=
  lit "event: error" ++ [10] ++ lit "data: "
  ++ stringify_singleton (lit "error") text ++ [10; 10].

(** *** The handler, up to its first [await] *)

(** Where a call of the handler is suspended. *)
Inductive Suspension :=
  | AwaitCreate   (* await together.chat.completions.create(...) *)
  | AwaitChunk.   (* for await (const chunk of stream) *)

(** The locals of a suspended call.  [sessionHistory] is a reference: the
    array it names is the one [chatMemory] holds. *)
Record Frame := mkFrame {
  frame_sessionId : js_string;
  cleanedMessage : js_string;
  sessionHistory : nat;
  messagesForTogether : list Message;
  accumulatedContent : js_string;
  res : Response;
  suspended_at : Suspension
}.

Inductive Outcome :=
  | Completed (r : Response)
  | Suspended (f : Frame).

(** How control leaves the synchronous part of the [try] block. *)
Inductive TryExit :=
  | Returned (r : Response)
  | Threw (e : JsError) (r : Response)
  | Awaits (f : Frame).

(** [if (!chatMemory[key]) chatMemory[key] = []; const sessionHistory =
    chatMemory[key];]: the state after the statement and the value read. *)
Definition session_entry (key : js_string) (st : State) : State * Property :=
  match chatMemory_get key st with
  | Some p => (st, p)
  | None => (init_session key st, ArrayRef (length (arrays st)))
  end.

(** The array behind a reference. *)
Definition array_at (l : nat) (st : State) : list Message :=
  default [] (arrays st !! l).

Definition try_block (body : Body) (key : js_string) (st : State)
    (r : Response) : State * TryExit :=
  if negb (truthy (message body)) then
    (st, Returned (json_error no_message_text (status 400 r)))
  else
    match cleanUserMessage_value (message body) with
    | Throw e => (st, Threw e r)
    | Normal cleaned =>
        match session_entry key st with
        | (st1, Inherited) =>
            (* for (const turn of history) *)
            (st1, Threw (TypeError "history is not iterable") r)
        | (st1, ArrayRef l) =>
            let messages := buildMessagesForTogether (array_at l st1) cleaned in
            let r1 := writeHead 200 event_stream_headers r in
            (st1, Awaits (mkFrame key cleaned l messages [] r1 AwaitCreate))
        end
    end.

Definition catch_block (error : JsError) (r : Response) : Response :=
  if negb (headersSent r) then
    json_error (or_default (error_message error) internal_error_text) (status 500 r)
  else
    end_ (write (error_frame (or_default (error_message error) stream_error_text)) r).

Definition finally_block (key : js_string) (st : State) (r : Response)
    : State * Response :=
  (unlock key st, if negb (writableEnded r) then end_ r else r).

Definition completed (x : State * Response) : State * Outcome :=
  (fst x, Completed (snd x)).

(** The handler once the session is admitted: the lock is held in [st]. *)
Definition after_admission (body : Body) (key : js_string) (st : State)
    : State * Outcome :=
  match try_block body key st new_response with
  | (st1, Returned r) => completed (finally_block key st1 r)
  | (st1, Threw e r) => completed (finally_block key st1 (catch_block e r))
  | (st1, Awaits f) => (st1, Suspended f)
  end.

(** The handler from the arrival of a request to its first suspension. *)
Definition handler (body : Body) (st : State) : State * Outcome :=
  let key := currentSessionId body in
  if isLocked key st then
    (st, Completed (json_error busy_text (status 429 new_response)))
  else
    after_admission body key (lock key st).

(** *** Resuming a suspended call *)

(** What the upstream hands to a suspended call: the promise of [create]
    resolves or rejects; the stream yields a chunk, ends, or rejects. *)
Inductive Event :=
  | Resolved
  | Rejected (e : JsError)
  | Yielded (chunk : Chunk)
  | Ended.

Definition set_stream (f : Frame) : Frame :=
  mkFrame (frame_sessionId f) (cleanedMessage f) (sessionHistory f)
    (messagesForTogether f) [] (res f) AwaitChunk.

Definition forward (text : js_string) (f : Frame) : Frame :=
  mkFrame (frame_sessionId f) (cleanedMessage f) (sessionHistory f)
    (messagesForTogether f) (accumulatedContent f ++ text)
    (write (data_frame text) (res f)) AwaitChunk.

(** An exception reaches the [catch] block, then [finally]. *)
Definition fail (e : JsError) (f : Frame) (st : State) : State * Response :=
  finally_block (frame_sessionId f) st (catch_block e (res f)).

(** The statements after the loop, then [finally]. *)
Definition complete (f : Frame) (st : State) : State * Response :=
  let r := write done_frame (res f) in
  let st1 := push (sessionHistory f) (mkMessage user (cleanedMessage f)) st in
  let st2 :=
    push (sessionHistory f)
      (mkMessage assistant (trim (accumulatedContent f))) st1 in
  finally_block (frame_sessionId f) st2 r.

Definition resume (ev : Event) (f : Frame) (st : State)
    : option (State * Outcome) :=
  match suspended_at f, ev with
  | AwaitCreate, Resolved => Some (st, Suspended (set_stream f))
  | AwaitCreate, Rejected e => Some (completed (fail e f st))
  | AwaitChunk, Yielded chunk =>
      match chunk_content chunk with
      | Throw e => Some (completed (fail e f st))
      | Normal (Some text) => Some (st, Suspended (forward text f))
      | Normal None => Some (st, Suspended f)
      end
  | AwaitChunk, Ended => Some (completed (complete f st))
  | AwaitChunk, Rejected e => Some (completed (fail e f st))
  | _, _ => None
  end.

(** *** One request served to its end *)

Inductive StreamEnd :=
  | EndsNormally
  | Breaks (e : JsError).

(** What the upstream does for one request. *)
Inductive Upstream :=
  | CreateRejects (e : JsError)
  | CreateResolves (chunks : list Chunk) (fin : StreamEnd).

Definition final_event (fin : StreamEnd) : Event :=
  match fin with
  | EndsNormally => Ended
  | Breaks e => Rejected e
  end.

Definition events_of (up : Upstream) : list Event :=
  match up with
  | CreateRejects e => [Rejected e]
  | CreateResolves chunks fin => Resolved :: map Yielded chunks ++ [final_event fin]
  end.

(** The events are handed over in order until the call completes.  [None]:
    the call is still suspended when the events run out, or an event does
    not fit the point of suspension. *)
Fixpoint feed (events : list Event) (f : Frame) (st : State)
    : option (State * Response) :=
  match events with
  | [] => None
  | ev :: rest =>
      match resume ev f st with
      | Some (st1, Suspended f1) => feed rest f1 st1
      | Some (st1, Completed r) => Some (st1, r)
      | None => None
      end
  end.

Definition serve (body : Body) (up : Upstream) (st : State)
    : option (State * Response) :=
  match handler body st with
  | (st1, Completed r) => Some (st1, r)
  | (st1, Suspended f) => feed (events_of up) f st1
  end.

(** *** The relay loop as a whole *)

(** The loop over the chunks received: the frame with which the loop is
    left, and the exception when the loop body throws. *)
Fixpoint run_loop (chunks : list Chunk) (f : Frame) : Frame * option JsError :=
  match chunks with
  | [] => (f, None)
  | chunk :: rest =>
      match chunk_content chunk with
      | Throw e => (f, Some e)
      | Normal (Some text) => run_loop rest (forward text f)
      | Normal None => run_loop rest f
      end
  end.

(** The loop and what follows it. *)
Definition after_loop (chunks : list Chunk) (fin : StreamEnd) (f : Frame)
    (st : State) : State * Response :=
  match run_loop chunks f with
  | (f1, Some e) => fail e f1 st
  | (f1, None) =>
      match fin with
      | EndsNormally => complete f1 st
      | Breaks e => fail e f1 st
      end
  end.

Definition forward_all (texts : list js_string) (f : Frame) : Frame :=
  fold_left (fun g text => forward text g) texts f.


(** The texts the loop forwards: the content of every chunk whose content is
    a non-empty string, in the order of the chunks. *)
Definition deltas (chunks : list Chunk) : list js_string :=
  omap (fun chunk =>
          match chunk_content chunk with
          | Normal o => o
          | Throw _ => None
          end) chunks.

(** A chunk on which the loop body throws. *)
Definition malformed (chunk : Chunk) : bool :=
  match chunk_content chunk with
  | Normal _ => false
  | Throw _ => true
  end.

(** The upstream accepts the request and its stream runs to a normal end
    without making the loop body throw. *)
Definition ends_cleanly (up : Upstream) : bool :=
  match up with
  | CreateResolves chunks EndsNormally => forallb (fun c => negb (malformed c)) chunks
  | _ => false
  end.

(** The handler does not complete on arrival: it reaches the call of
    [create]. *)
Definition accepted (body : Body) (st : State) : bool :=
  match handler body st with
  | (_, Suspended _) => true
  | (_, Completed _) => false
  end.

(** *** Histories *)

(** Turns come in pairs, a user turn and then an assistant turn. *)
Fixpoint alternating (h : list Message) : bool :=
  match h with
  | [] => true
  | u :: a :: rest =>
      bool_decide (role u = user) && bool_decide (role a = assistant)
      && alternating rest
  | [_] => false
  end.

(** Every own property of [chatMemory] refers to an array of the heap, and
    no two of them to the same array. *)
Definition well_formed (st : State) : Prop :=
  (forall key l, chatMemory st !! key = Some l -> (l < length (arrays st))%nat)
  /\ (forall k1 k2 l, chatMemory st !! k1 = Some l -> chatMemory st !! k2 = Some l -> k1 = k2).

(** *** The server: requests in flight, interleaved *)

(** The module state together with the suspended calls of the handler. *)
Record System := mkSystem { store : State; calls : list Frame }.

Definition initial_system : System := mkSystem initial_state [].

(** What the event loop runs next: the handler for a new request, up to its
    first [await], or the continuation of the [i]-th suspended call. *)
Inductive Action :=
  | Request (body : Body)
  | Deliver (i : nat) (ev : Event).

Definition act (a : Action) (sys : System) : option System :=
  match a with
  | Request body =>
      match handler body (store sys) with
      | (st, Suspended f) => Some (mkSystem st (calls sys ++ [f]))
      | (st, Completed _) => Some (mkSystem st (calls sys))
      end
  | Deliver i ev =>
      match calls sys !! i with
      | Some f =>
          match resume ev f (store sys) with
          | Some (st, Suspended f1) => Some (mkSystem st (<[i := f1]> (calls sys)))
          | Some (st, Completed _) => Some (mkSystem st (delete i (calls sys)))
          | None => None
          end
      | None => None
      end
  end.

Definition step (sys sys1 : System) : Prop := exists a, act a sys = Some sys1.

Fixpoint run (actions : list Action) (sys : System) : option System :=
  match actions with
  | [] => Some sys
  | a :: rest =>
      match act a sys with
      | Some sys1 => run rest sys1
      | None => None
      end
  end.

(** The states the server can be in: any interleaving of requests and
    upstream events from the initial state. *)
Definition reachable (sys : System) : Prop :=
  exists actions, run actions initial_system = Some sys.

(** What every reachable state satisfies: the store is well formed, every
    array of the heap holds whole exchanges, and the reference a suspended
    call holds is the one [chatMemory] has for its session. *)
Definition coherent (sys : System) : Prop :=
  well_formed (store sys)
  /\ (forall l h, arrays (store sys) !! l = Some h -> alternating h = true)
  /\ (forall f, f ∈ calls sys ->
        chatMemory (store sys) !! frame_sessionId f = Some (sessionHistory f)).

End Relay.

Import Relay.

(** ** Further notions, for the properties beyond the handler's contract *)

Module Protocol.

(** The text has no line feed and no carriage return. *)
Definition no_line_break (s : js_string) : bool :=
  forallb (fun c => negb ((c =? 10) || (c =? 13))) s.

(** Reading back what [JSON.stringify] wrote for a string, escape by
    escape: the inverse used to show that a frame determines its delta. *)
Definition hex_value (h : N) : N := if h <? 58 then h - 48 else h - 87.

Definition unescape (k : N) : N :=
  if k =? 98 then 8
  else if k =? 116 then 9
  else if k =? 110 then 10
  else if k =? 102 then 12
  else if k =? 114 then 13
  else k.

Fixpoint unquote_units (q : js_string) : js_string :=
  match q with
  | [] => []
  | c :: rest =>
      if c =? 92 then
        match rest with
        | [] => []
        | k :: rest1 =>
            if k =? 117 then
              match rest1 with
              | h3 :: h2 :: h1 :: h0 :: rest2 =>
                  (4096 * hex_value h3 + 256 * hex_value h2
                   + 16 * hex_value h1 + hex_value h0)
                  :: unquote_units rest2
              | _ => []
              end
            else unescape k :: unquote_units rest1
        end
      else c :: unquote_units rest
  end.

(** Every element is a code unit: below 2^16. *)
Definition code_units (s : js_string) : Prop := Forall (fun c => c < 65536) s.

(** The chunks the loop gets through: those before the first malformed
    one. *)
Fixpoint before_failure (chunks : list Chunk) : list Chunk :=
  match chunks with
  | [] => []
  | chunk :: rest =>
      if malformed chunk then [] else chunk :: before_failure rest
  end.

(** The exception that ends the stream of a request, if one does: the one
    the loop body throws on the first malformed chunk, or else the one the
    stream breaks with. *)
Fixpoint stream_failure (chunks : list Chunk) (fin : StreamEnd) : option JsError :=
  match chunks with
  | [] =>
      match fin with
      | EndsNormally => None
      | Breaks e => Some e
      end
  | chunk :: rest =>
      match chunk_content chunk with
      | Throw e => Some e
      | Normal _ => stream_failure rest fin
      end
  end.

(** The status the handler answers with, read off its guards in the order
    they are tested: the lock, the message, the sanitizer's receiver, the
    value found in [chatMemory]. *)
Definition status_of (body : Body) (st : State) : N :=
  if isLocked (currentSessionId body) st then 429
  else if negb (truthy (message body)) then 400
  else
    match message body with
    | JsString _ =>
        match chatMemory_get (currentSessionId body) st with
        | Some Inherited => 500
        | _ => 200
        end
    | _ => 500
    end.




(** A turn as the handler stores them: a user or an assistant turn whose
    content has no white space at either end; a user turn holds no
    mention. *)
Definition stored_turn (turn : Message) : Prop :=
  role turn <> system
  /\ trim (content turn) = content turn
  /\ (role turn = user -> has_mention (content turn) = false).

(** A message as the sanitizer returns them. *)
Definition sanitized (s : js_string) : Prop :=
  trim s = s /\ has_mention s = false.

(** Every array of the heap holds stored turns, and every call in flight
    holds a sanitized message. *)
Definition tidy (sys : System) : Prop :=
  (forall l h, arrays (store sys) !! l = Some h -> Forall stored_turn h)
  /\ (forall f, f ∈ calls sys -> sanitized (cleanedMessage f)).

End Protocol.

Import Protocol.

(** * Proofs *)

#[local] Arguments cleanUserMessage : simpl never.
#[local] Arguments lit : simpl never.
#[local] Arguments buildMessagesForTogether : simpl never.
#[local] Arguments json_error : simpl never.
#[local] Arguments data_frame : simpl never.
#[local] Arguments error_frame : simpl never.

(** ** Facts about the sanitizer *)

Section TrimFacts.

Implicit Types (s : js_string) (c : N).

Lemma trimStart_length s : (length (trimStart s) <= length s)%nat.
Proof.
  induction s as [| c s IH]; cbn [trimStart]; [lia |].
  destruct (isWhiteSpace c); cbn [length]; lia.
Qed.

Lemma trimEnd_length s : (length (trimEnd s) <= length s)%nat.
Proof.
  unfold trimEnd. rewrite length_rev.
  etransitivity; [apply trimStart_length |]. by rewrite length_rev.
Qed.

Lemma trim_length s : (length (trim s) <= length s)%nat.
Proof.
  unfold trim. etransitivity; [apply trimEnd_length | apply trimStart_length].
Qed.

(** What [trimStart] returns does not start with white space. *)
Lemma trimStart_head s c rest :
  trimStart s = c :: rest -> isWhiteSpace c = false.
Proof.
  induction s as [| d s IH]; cbn [trimStart]; [discriminate |].
  destruct (isWhiteSpace d) eqn:Hd; [exact IH |]. by intros [= <- _].
Qed.

Lemma trimStart_fixed s :
  (forall c rest, s = c :: rest -> isWhiteSpace c = false) -> trimStart s = s.
Proof.
  destruct s as [| c s]; [reflexivity |]. intros H. cbn [trimStart].
  by rewrite (H c s eq_refl).
Qed.

Lemma trimStart_idempotent s : trimStart (trimStart s) = trimStart s.
Proof. apply trimStart_fixed. intros c rest. apply trimStart_head. Qed.

Lemma trimStart_snoc s c :
  isWhiteSpace c = false -> trimStart (s ++ [c]) = trimStart s ++ [c].
Proof.
  intros Hc. induction s as [| d s IH]; cbn [trimStart app].
  - by rewrite Hc.
  - destruct (isWhiteSpace d); [exact IH | reflexivity].
Qed.

Lemma trimEnd_cons c s :
  isWhiteSpace c = false -> trimEnd (c :: s) = c :: trimEnd s.
Proof.
  intros Hc. unfold trimEnd. cbn [rev].
  rewrite trimStart_snoc by exact Hc. rewrite rev_app_distr. reflexivity.
Qed.

Lemma trimEnd_idempotent s : trimEnd (trimEnd s) = trimEnd s.
Proof. unfold trimEnd. by rewrite rev_involutive, trimStart_idempotent. Qed.

(** What [trimEnd] returns does not end with white space. *)
Lemma trimEnd_last s front c :
  trimEnd s = front ++ [c] -> isWhiteSpace c = false.
Proof.
  unfold trimEnd. intros H. apply (f_equal (@rev N)) in H.
  rewrite rev_involutive, rev_app_distr in H. cbn in H.
  by eapply trimStart_head.
Qed.

Lemma trim_head s c rest : trim s = c :: rest -> isWhiteSpace c = false.
Proof.
  unfold trim. destruct (trimStart s) as [| d u] eqn:Hs.
  - discriminate.
  - apply trimStart_head in Hs as Hd. rewrite trimEnd_cons by exact Hd.
    by intros [= <- _].
Qed.

Lemma trim_last s front c : trim s = front ++ [c] -> isWhiteSpace c = false.
Proof. unfold trim. apply trimEnd_last. Qed.

Lemma trim_idempotent s : trim (trim s) = trim s.
Proof.
  unfold trim at 1. rewrite (trimStart_fixed (trim s)).
  - unfold trim. apply trimEnd_idempotent.
  - intros c rest. apply trim_head.
Qed.

End TrimFacts.

Section ReplaceFacts.

Variable matcher : js_string -> option nat.

Implicit Types (s : js_string) (k : nat).

(** Dropping the rest of a match and scanning on. *)
Lemma replaceAll_skip k s :
  replaceAll matcher k s = replaceAll matcher O (skipn k s).
Proof.
  revert k. induction s as [| c s IH]; intros k.
  - by destruct k.
  - destruct k as [| k]; [reflexivity |]. cbn [replaceAll skipn]. apply IH.
Qed.

Lemma replaceAll_match c s k :
  matcher (c :: s) = Some (S k) ->
  replaceAll matcher O (c :: s) = replaceAll matcher O (skipn (S k) (c :: s)).
Proof. intros H. cbn [replaceAll skipn]. rewrite H. apply replaceAll_skip. Qed.

Lemma replaceAll_keep c s :
  matcher (c :: s) = None ->
  replaceAll matcher O (c :: s) = c :: replaceAll matcher O s.
Proof. intros H. cbn [replaceAll]. by rewrite H. Qed.

Lemma replaceAll_length k s :
  (length (replaceAll matcher k s) <= length s)%nat.
Proof.
  revert k. induction s as [| c s IH]; intros k; cbn [replaceAll length]; [lia |].
  destruct k as [| k].
  - destruct (matcher (c :: s)) as [[| n] |]; cbn [length];
      try (specialize (IH O); lia). specialize (IH n). lia.
  - specialize (IH k). lia.
Qed.

(** Where the pattern matches nowhere, nothing is removed. *)
Lemma replaceAll_no_occurrence s :
  occurs matcher s = false -> replaceAll matcher O s = s.
Proof.
  induction s as [| c s IH]; [reflexivity |]. cbn [occurs replaceAll].
  destruct (matcher (c :: s)); [discriminate |]. intros H. by rewrite IH.
Qed.

(** Where it matches, and matches are not empty, the result is shorter. *)
Lemma replaceAll_occurrence_shorter s :
  (forall t, matcher t <> Some O) ->
  occurs matcher s = true ->
  (length (replaceAll matcher O s) < length s)%nat.
Proof.
  intros Hne. induction s as [| c s IH]; [discriminate |].
  cbn [occurs replaceAll length].
  destruct (matcher (c :: s)) as [[| n] |] eqn:Hm.
  - by apply Hne in Hm.
  - intros _. pose proof (replaceAll_length n s). lia.
  - intros H. apply IH in H. cbn [length]. lia.
Qed.

End ReplaceFacts.

Section MarkerFacts.

Implicit Types (s x w label pre post : js_string) (c : N).

Lemma canonicalize_colon c : canonicalize c = 58 <-> c = 58.
Proof.
  unfold canonicalize, is_ascii_lower.
  destruct (97 <=? c) eqn:H1; destruct (c <=? 122) eqn:H2; cbn [andb];
    destruct (c =? 243) eqn:H3;
    try apply N.leb_le in H1; try apply N.leb_le in H2;
    try apply N.leb_gt in H1; try apply N.leb_gt in H2; try apply N.eqb_eq in H3;
    lia.
Qed.

Lemma match_label_length label x rest :
  match_label label x = Some rest -> length x = (length label + length rest)%nat.
Proof.
  revert x. induction label as [| p label IH]; intros x; cbn [match_label].
  - by intros [= ->].
  - destruct x as [| c x]; [discriminate |].
    destruct (canonicalize c =? canonicalize p); [| discriminate].
    intros H. apply IH in H. cbn [length]. lia.
Qed.

Lemma match_label_drop label x rest :
  match_label label x = Some rest -> rest = drop (length label) x.
Proof.
  revert x. induction label as [| p label IH]; intros x; cbn [match_label].
  - by intros [= ->].
  - destruct x as [| c x]; [discriminate |].
    destruct (canonicalize c =? canonicalize p); [| discriminate].
    intros H. by apply IH in H.
Qed.

Lemma match_label_app label x rest post :
  match_label label x = Some rest ->
  match_label label (x ++ post) = Some (rest ++ post).
Proof.
  revert x. induction label as [| p label IH]; intros x; cbn [match_label].
  - by intros [= ->].
  - destruct x as [| c x]; [discriminate |]. cbn [app].
    destruct (canonicalize c =? canonicalize p); [| discriminate]. apply IH.
Qed.

(** A label that ends with its only colon matches up to the first colon of
    the text, whatever the label. *)
Lemma match_label_first_colon label x rest :
  colon_terminated label = true ->
  match_label label x = Some rest ->
  first_colon x = Some (length label - 1)%nat.
Proof.
  revert x. induction label as [| p label IH]; intros x; [discriminate |].
  cbn [colon_terminated match_label]. destruct x as [| c x]; [by destruct label |].
  destruct (canonicalize c =? canonicalize p) eqn:Hcp; [| by destruct label].
  apply N.eqb_eq in Hcp. destruct label as [| q label].
  - intros Hp _. apply N.eqb_eq in Hp. subst p.
    change (canonicalize 58) with 58 in Hcp.
    apply (proj1 (canonicalize_colon c)) in Hcp.
    subst c. reflexivity.
  - intros Hp Hm. apply andb_true_iff in Hp as [Hp Hrest].
    apply negb_true_iff, N.eqb_neq in Hp.
    assert (c <> 58) as Hc.
    { intros ->. apply Hp. rewrite <- Hcp. reflexivity. }
    cbn [first_colon]. apply N.eqb_neq in Hc. rewrite Hc.
    rewrite (IH x Hrest Hm). cbn [length fmap option_fmap option_map].
    f_equal. lia.
Qed.

Lemma role_markers_colon_terminated label :
  label ∈ role_markers -> colon_terminated label = true.
Proof.
  intros H. assert (forallb colon_terminated role_markers = true) as Hall
    by (vm_compute; reflexivity).
  rewrite forallb_forall in Hall. apply Hall. by apply list_elem_of_In.
Qed.

Lemma colon_terminated_length label :
  colon_terminated label = true -> (0 < length label)%nat.
Proof. destruct label; [discriminate |]. cbn [length]. lia. Qed.

Lemma match_alternatives_Some alts x n :
  match_alternatives alts x = Some n ->
  exists label rest,
    label ∈ alts /\ match_label label x = Some rest /\ n = length label.
Proof.
  induction alts as [| label alts IH]; cbn [match_alternatives]; [discriminate |].
  destruct (match_label label x) as [rest |] eqn:Hm.
  - intros [= <-]. exists label, rest. split_and!; [apply list_elem_of_here | done ..].
  - intros H. destruct (IH H) as (l & r & Hl & Hr & Hn).
    exists l, r. split_and!; [by apply list_elem_of_further | done ..].
Qed.

Lemma match_alternatives_is_Some alts x label rest :
  label ∈ alts -> match_label label x = Some rest ->
  is_Some (match_alternatives alts x).
Proof.
  induction alts as [| l alts IH]; intros Hin Hm.
  - by apply not_elem_of_nil in Hin.
  - cbn [match_alternatives]. destruct (match_label l x) eqn:Hl; [by eexists |].
    apply elem_of_cons in Hin as [-> | Hin]; [congruence | by apply IH].
Qed.

(** A match of the first pattern ends at the first colon. *)
Lemma marker_match_first_colon x n :
  marker_match x = Some n ->
  exists i, first_colon x = Some i /\ n = S i.
Proof.
  intros H. apply match_alternatives_Some in H as (label & rest & Hin & Hm & ->).
  apply role_markers_colon_terminated in Hin as Hct.
  exists (length label - 1)%nat. split; [by eapply match_label_first_colon |].
  apply colon_terminated_length in Hct. lia.
Qed.

Lemma marker_match_nonempty x : marker_match x <> Some O.
Proof.
  intros H. apply marker_match_first_colon in H as (i & _ & Hi). lia.
Qed.

Lemma mention_match_nonempty x : mention_match x <> Some O.
Proof.
  unfold mention_match. destruct x as [| c x]; [discriminate |].
  destruct (c =? 64); [| discriminate]. by destruct (handle_run x).
Qed.

Lemma first_colon_lt x i : first_colon x = Some i -> (i < length x)%nat.
Proof.
  revert i. induction x as [| c x IH]; intros i; cbn [first_colon]; [discriminate |].
  destruct (c =? 58).
  - intros [= <-]. cbn [length]. lia.
  - destruct (first_colon x) as [j |]; [| discriminate].
    cbn. intros [= <-]. specialize (IH j eq_refl). cbn [length]. lia.
Qed.

Lemma first_colon_app x y :
  first_colon (x ++ y)
  = match first_colon x with
    | Some i => Some i
    | None => (fun j => (length x + j)%nat) <$> first_colon y
    end.
Proof.
  induction x as [| c x IH]; cbn [first_colon app length].
  - by destruct (first_colon y).
  - destruct (c =? 58); [reflexivity |]. rewrite IH.
    destruct (first_colon x); [reflexivity |]. by destruct (first_colon y).
Qed.

(** An occurrence of a marker at the start of the text is matched in full. *)
Lemma marker_match_spelled w post :
  is_marker w = true -> marker_match (w ++ post) = Some (length w).
Proof.
  unfold is_marker. rewrite existsb_exists. intros (label & Hin & Hsp).
  apply list_elem_of_In in Hin. unfold spells in Hsp.
  destruct (match_label label w) as [[| ? ?] |] eqn:Hm; try discriminate.
  apply match_label_length in Hm as Hlen. cbn [length] in Hlen.
  apply (match_label_app _ _ _ post) in Hm. cbn [app] in Hm.
  destruct (match_alternatives_is_Some role_markers (w ++ post) label post Hin Hm)
    as [n Hn].
  unfold marker_match. rewrite Hn. f_equal.
  apply marker_match_first_colon in Hn as (i & Hi & ->).
  apply role_markers_colon_terminated in Hin as Hct.
  rewrite (match_label_first_colon _ _ _ Hct Hm) in Hi. injection Hi as <-.
  apply colon_terminated_length in Hct. lia.
Qed.

Lemma is_marker_colon w post :
  is_marker w = true ->
  first_colon (w ++ post) = Some (length w - 1)%nat /\ (0 < length w)%nat.
Proof.
  intros Hw. pose proof (marker_match_spelled w post Hw) as Hm.
  apply marker_match_first_colon in Hm as (i & Hi & Hn).
  rewrite Hi. split; [f_equal |]; lia.
Qed.

(** Every occurrence of a marker in the text is removed in full: what is
    kept before the text that follows it comes from the text before it. *)
Lemma remove_markers_occurrence pre w post :
  is_marker w = true ->
  exists out,
    remove_markers (pre ++ w ++ post) = out ++ remove_markers post
    /\ out `sublist_of` pre.
Proof.
  intros Hw. unfold remove_markers.
  destruct (is_marker_colon w post Hw) as [Hcolon Hpos].
  assert (forall n pre, (length pre <= n)%nat ->
            exists out,
              replaceAll marker_match O (pre ++ w ++ post)
              = out ++ replaceAll marker_match O post
              /\ out `sublist_of` pre) as Hn.
  { clear pre. induction n as [| n IH]; intros pre Hlen.
    - destruct pre; [| cbn [length] in Hlen; lia].
      exists []. split; [| done]. cbn [app].
      pose proof (marker_match_spelled w post Hw) as Hm.
      destruct (w ++ post) as [| c rest] eqn:Hx.
      { apply (f_equal length) in Hx. rewrite length_app in Hx. cbn in Hx. lia. }
      destruct (length w) as [| k] eqn:Hk; [lia |].
      rewrite (replaceAll_match _ _ _ _ Hm). rewrite <- Hx, <- Hk.
      by rewrite drop_app_length.
    - destruct pre as [| c pre]; [apply (IH []); cbn; lia |].
      cbn [length] in Hlen. cbn [app].
      destruct (marker_match (c :: pre ++ w ++ post)) as [m |] eqn:Hm.
      + apply marker_match_first_colon in Hm as Hfc.
        destruct Hfc as (i & Hi & ->).
        rewrite (replaceAll_match _ _ _ _ Hm).
        change (c :: pre ++ w ++ post) with ((c :: pre) ++ w ++ post) in *.
        rewrite first_colon_app in Hi.
        destruct (first_colon (c :: pre)) as [j |] eqn:Hj.
        * injection Hi as <-. apply first_colon_lt in Hj as Hlt.
          rewrite drop_app_le by lia.
          destruct (IH (drop (S j) (c :: pre))) as (out & Hout & Hsub).
          { rewrite length_drop. cbn [length] in *. lia. }
          exists out. split; [exact Hout |].
          etransitivity; [exact Hsub | apply sublist_drop].
        * rewrite Hcolon in Hi. cbn in Hi. injection Hi as <-.
          exists []. split; [| apply sublist_nil_l]. rewrite app_nil_l.
          rewrite (app_assoc (c :: pre) w post).
          rewrite drop_app_length'; [reflexivity |].
          rewrite length_app. cbn [length]. lia.
      + rewrite (replaceAll_keep _ _ _ Hm).
        destruct (IH pre) as (out & Hout & Hsub); [lia |].
        exists (c :: out). split; [by rewrite Hout | by apply sublist_skip]. }
  by eapply Hn.
Qed.

End MarkerFacts.

Section MentionFacts.

Implicit Types (s pre post run : js_string) (c : N).

Lemma handle_run_le s : (handle_run s <= length s)%nat.
Proof.
  induction s as [| c s IH]; cbn [handle_run length]; [lia |].
  destruct (is_handle_char c); lia.
Qed.

(** A run of handle characters stops at an [@] at the latest. *)
Lemma handle_run_at pre post : handle_run (pre ++ 64 :: post) = handle_run pre.
Proof.
  induction pre as [| c pre IH]; cbn [handle_run app]; [reflexivity |].
  destruct (is_handle_char c); [by rewrite IH | reflexivity].
Qed.

Lemma handle_run_all run post :
  forallb is_handle_char run = true ->
  handle_run (run ++ post) = (length run + handle_run post)%nat.
Proof.
  induction run as [| c run IH]; cbn [forallb handle_run app length]; [done |].
  intros H. apply andb_true_iff in H as [-> H]. by rewrite IH.
Qed.

Lemma mention_match_at c pre post :
  mention_match ((c :: pre) ++ 64 :: post) = mention_match (c :: pre).
Proof. unfold mention_match. cbn [app]. by rewrite handle_run_at. Qed.

Lemma mention_match_Some s n :
  mention_match s = Some n ->
  exists rest m, s = 64 :: rest /\ handle_run rest = S m /\ n = S (S m).
Proof.
  unfold mention_match. destruct s as [| c rest]; [discriminate |].
  destruct (c =? 64) eqn:Hc; [| discriminate]. apply N.eqb_eq in Hc. subst c.
  destruct (handle_run rest) as [| m] eqn:Hr; [discriminate |].
  intros [= <-]. by exists rest, m.
Qed.

(** The scan of the text before an [@] does not depend on what follows. *)
Lemma remove_mentions_at pre post :
  remove_mentions (pre ++ 64 :: post)
  = remove_mentions pre ++ remove_mentions (64 :: post).
Proof.
  unfold remove_mentions.
  assert (forall n pre, (length pre <= n)%nat ->
            replaceAll mention_match O (pre ++ 64 :: post)
            = replaceAll mention_match O pre
              ++ replaceAll mention_match O (64 :: post)) as Hn.
  { clear pre. induction n as [| n IH]; intros pre Hlen.
    - destruct pre; [reflexivity | cbn [length] in Hlen; lia].
    - destruct pre as [| c pre]; [reflexivity |]. cbn [length] in Hlen.
      destruct (mention_match (c :: pre)) as [k |] eqn:Hm.
      + apply mention_match_Some in Hm as Hs.
        destruct Hs as (rest & m & Heq & Hrun & ->). injection Heq as -> ->.
        assert (mention_match (64 :: (rest ++ 64 :: post)) = Some (S (S m))) as Hm'.
        { rewrite <- Hm. apply (mention_match_at 64 rest post). }
        cbn [app].
        rewrite (replaceAll_match _ _ _ _ Hm'), (replaceAll_match _ _ _ _ Hm).
        pose proof (handle_run_le rest) as Hle.
        cbn [skipn]. rewrite drop_app_le by lia.
        apply IH. rewrite length_drop. lia.
      + assert (mention_match (c :: (pre ++ 64 :: post)) = None) as Hm'.
        { rewrite <- Hm. apply (mention_match_at c pre post). }
        cbn [app].
        rewrite (replaceAll_keep _ _ _ Hm'), (replaceAll_keep _ _ _ Hm).
        cbn [app]. f_equal. apply IH. lia. }
  by eapply Hn.
Qed.

(** A mention is removed in full, and with it nothing else. *)
Lemma remove_mentions_occurrence pre run post :
  run <> [] ->
  forallb is_handle_char run = true ->
  handle_run post = O ->
  remove_mentions (pre ++ 64 :: run ++ post)
  = remove_mentions pre ++ remove_mentions post.
Proof.
  intros Hne Hall Hpost. rewrite remove_mentions_at. f_equal.
  unfold remove_mentions.
  assert (mention_match (64 :: run ++ post) = Some (S (length run))) as Hm.
  { unfold mention_match. cbn. rewrite handle_run_all by exact Hall.
    rewrite Hpost, Nat.add_0_r. destruct run; [done | reflexivity]. }
  rewrite (replaceAll_match _ _ _ _ Hm). cbn [skipn]. by rewrite drop_app_length.
Qed.

End MentionFacts.

(** ** The properties of the sanitizer *)

Section SanitizerClaims.

Implicit Types (s pre post w run : js_string).

Lemma clean_length s :
  (length (cleanUserMessage s) <= length (remove_markers s))%nat.
Proof.
  unfold cleanUserMessage. etransitivity; [apply trim_length |].
  apply replaceAll_length.
Qed.

Lemma clean_without_markers s :
  has_marker s = false -> cleanUserMessage s = trim (remove_mentions s).
Proof.
  intros Hmk. unfold cleanUserMessage, remove_markers.
  by rewrite (replaceAll_no_occurrence _ _ Hmk).
Qed.

(** Where neither pattern matches, only the white space at the ends goes. *)
Lemma clean_without_occurrence s :
  has_marker s = false -> has_mention s = false -> cleanUserMessage s = trim s.
Proof.
  intros Hmk Hmn. unfold cleanUserMessage, remove_markers, remove_mentions.
  rewrite (replaceAll_no_occurrence _ _ Hmk).
  by rewrite (replaceAll_no_occurrence _ _ Hmn).
Qed.

(** C7.  On a string the sanitizer returns, and what it returns is the
    trimmed result of removing the markers and then the mentions.  Every
    occurrence of a role marker in the text, in any mix of cases, is deleted
    in full by the first pass; every mention of the text the second pass
    reads, the [@] and the whole run of word characters, dots and hyphens
    after it, is deleted in full by that pass; a text in which neither
    occurs is only trimmed; the result neither starts nor ends with white
    space.  The two examples of the specification hold. *)
Theorem C7_sanitizer :
  cleanUserMessage (lit "Usuario: hola @bob.smith") = lit "hola"
  /\ cleanUserMessage (lit "  Respuesta: todo bien  ") = lit "todo bien"
  /\ (forall s,
        cleanUserMessage_value (JsString s)
        = Normal (trim (remove_mentions (remove_markers s))))
  /\ cleanUserMessage_value (JsString []) = Normal []
  /\ (forall pre w post,
        is_marker w = true ->
        exists out,
          remove_markers (pre ++ w ++ post) = out ++ remove_markers post
          /\ out `sublist_of` pre)
  /\ (forall pre run post,
        run <> [] ->
        forallb is_handle_char run = true ->
        handle_run post = O ->
        remove_mentions (pre ++ 64 :: run ++ post)
        = remove_mentions pre ++ remove_mentions post)
  /\ (forall s,
        has_marker s = false -> has_mention s = false ->
        cleanUserMessage s = trim s)
  /\ (forall s c rest, cleanUserMessage s = c :: rest -> isWhiteSpace c = false)
  /\ (forall s front c, cleanUserMessage s = front ++ [c] -> isWhiteSpace c = false).
Proof.
  split; [vm_compute; reflexivity |]. split; [vm_compute; reflexivity |].
  split; [reflexivity |]. split; [reflexivity |].
  split; [apply remove_markers_occurrence |].
  split; [apply remove_mentions_occurrence |].
  split; [apply clean_without_occurrence |].
  split.
  - intros s c rest. apply trim_head.
  - intros s front c. apply trim_last.
Qed.

Lemma C7_sanitizer_witness :
  let pre := lit "hola " in
  let w := lit "pregunta DEL usuario:" in
  let run := lit "bob.smith-x_1" in
  let post := lit " adios" in
  (is_marker w = true
   /\ exists out,
        remove_markers (pre ++ w ++ post) = out ++ remove_markers post
        /\ out `sublist_of` pre)
  /\ ((run <> [] /\ forallb is_handle_char run = true /\ handle_run post = O)
      /\ remove_mentions (pre ++ 64 :: run ++ post)
         = remove_mentions pre ++ remove_mentions post)
  /\ (cleanUserMessage (lit " @a Hola ") = lit "Hola"
      /\ isWhiteSpace 72 = false /\ isWhiteSpace 97 = false).
Proof.
  intros pre w run post.
  destruct C7_sanitizer as (_ & _ & _ & _ & Hmk & Hmn & _ & Hhd & Hlast).
  assert (is_marker w = true) as H1 by (vm_compute; reflexivity).
  assert (run <> []) as H2 by (vm_compute; discriminate).
  assert (forallb is_handle_char run = true) as H3 by (vm_compute; reflexivity).
  assert (handle_run post = O) as H4 by (vm_compute; reflexivity).
  assert (cleanUserMessage (lit " @a Hola ") = lit "Hola") as H5
    by (vm_compute; reflexivity).
  split; [split; [exact H1 | exact (Hmk pre w post H1)] |].
  split; [split; [by split_and! | exact (Hmn pre run post H2 H3 H4)] |].
  split; [exact H5 |]. split.
  - exact (Hhd (lit " @a Hola ") 72 (lit "ola") H5).
  - exact (Hlast (lit " @a Hola ") (lit "Hol") 97 H5).
Defined.

(** C8, as claimed, fails: deleting a marker or a mention can bring the
    pieces of another one together, and the patterns are applied once. *)
Lemma C8_not_idempotent :
  ~ (forall s, cleanUserMessage (cleanUserMessage s) = cleanUserMessage s).
Proof.
  intros H. specialize (H (lit "UsuUsuario:ario:")). revert H.
  vm_compute. discriminate.
Qed.

(** C8, amended.  Sanitizing a sanitized text changes nothing exactly when
    no role marker and no mention occurs in the sanitized text. *)
Theorem C8_idempotent_iff s :
  cleanUserMessage (cleanUserMessage s) = cleanUserMessage s
  <-> has_marker (cleanUserMessage s) = false
      /\ has_mention (cleanUserMessage s) = false.
Proof.
  set (t := cleanUserMessage s).
  assert (trim t = t) as Htrim by apply trim_idempotent.
  split.
  - intros Hfix. destruct (has_marker t) eqn:Hmk.
    { exfalso. pose proof (clean_length t) as Hlen. rewrite Hfix in Hlen.
      pose proof (replaceAll_occurrence_shorter marker_match t
                    marker_match_nonempty Hmk) as Hlt.
      unfold remove_markers in Hlen. lia. }
    split; [reflexivity |]. destruct (has_mention t) eqn:Hmn; [| reflexivity].
    exfalso. rewrite (clean_without_markers t Hmk) in Hfix.
    pose proof (trim_length (remove_mentions t)) as Hlen. rewrite Hfix in Hlen.
    pose proof (replaceAll_occurrence_shorter mention_match t
                  mention_match_nonempty Hmn) as Hlt.
    unfold remove_mentions in Hlen. lia.
  - intros [Hmk Hmn]. by rewrite clean_without_occurrence.
Qed.

Lemma C8_idempotent_iff_witness :
  let s := lit "Usuario: hola @bob.smith" in
  (has_marker (cleanUserMessage s) = false
   /\ has_mention (cleanUserMessage s) = false)
  /\ cleanUserMessage (cleanUserMessage s) = cleanUserMessage s.
Proof.
  intros s.
  assert (has_marker (cleanUserMessage s) = false
          /\ has_mention (cleanUserMessage s) = false) as H
    by (split; vm_compute; reflexivity).
  split; [exact H |]. exact (proj2 (C8_idempotent_iff s) H).
Defined.

End SanitizerClaims.

(** ** Facts about the module state *)

Section StateFacts.

Implicit Types (st : State) (key : js_string) (l : nat).

Lemma unlock_lock key st :
  key ∉ sessionsInProcess st -> unlock key (lock key st) = st.
Proof.
  intros Hfree. destruct st as [a m s]. unfold unlock, lock. simpl in *.
  f_equal. apply set_eq. intros x.
  rewrite elem_of_difference, elem_of_union, elem_of_singleton.
  split; [tauto |]. intros Hx. split; [tauto |]. congruence.
Qed.

Lemma not_locked_after_unlock key st : key ∉ sessionsInProcess (unlock key st).
Proof.
  unfold unlock. simpl. rewrite elem_of_difference, elem_of_singleton. tauto.
Qed.

Lemma locked_after_lock key st : key ∈ sessionsInProcess (lock key st).
Proof.
  unfold lock. simpl. rewrite elem_of_union, elem_of_singleton. tauto.
Qed.

Lemma isLocked_true key st : isLocked key st = true <-> key ∈ sessionsInProcess st.
Proof. unfold isLocked. apply bool_decide_eq_true. Qed.

Lemma isLocked_false key st : isLocked key st = false <-> key ∉ sessionsInProcess st.
Proof. unfold isLocked. apply bool_decide_eq_false. Qed.

(** Reading [chatMemory[key]] yields an array exactly for an own property. *)
Lemma chatMemory_get_array key st l :
  chatMemory_get key st = Some (ArrayRef l) <-> chatMemory st !! key = Some l.
Proof.
  unfold chatMemory_get. destruct (chatMemory st !! key) as [l0|].
  - split; congruence.
  - case_bool_decide; split; congruence.
Qed.

Lemma chatMemory_get_None key st :
  chatMemory_get key st = None -> chatMemory st !! key = None.
Proof.
  unfold chatMemory_get. destruct (chatMemory st !! key); [discriminate | done].
Qed.

Lemma getHistory_array_at key st l :
  chatMemory st !! key = Some l -> getHistory key st = array_at l st.
Proof. intros H. unfold getHistory, array_at. rewrite H. reflexivity. Qed.

(** Creating the entry of a session changes the history of no session: the
    new array is empty. *)
Lemma getHistory_init_session key k st :
  getHistory k (init_session key st) = getHistory k st.
Proof.
  unfold init_session. destruct (chatMemory_get key st) as [p|] eqn:Hget; [done |].
  apply chatMemory_get_None in Hget.
  unfold getHistory. simpl.
  destruct (decide (key = k)) as [-> | Hne].
  - rewrite lookup_insert_eq, Hget.
    rewrite lookup_app_r by lia. by rewrite Nat.sub_diag.
  - rewrite lookup_insert_ne by done.
    destruct (chatMemory st !! k) as [l|]; [| done].
    destruct (decide (l < length (arrays st))%nat) as [Hlt | Hge].
    + by rewrite lookup_app_l.
    + rewrite (lookup_ge_None_2 (arrays st)) by lia.
      rewrite lookup_app_r by lia.
      destruct (l - length (arrays st))%nat as [| [| n]]; reflexivity.
Qed.

Lemma session_entry_array key st st1 l :
  session_entry key st = (st1, ArrayRef l) ->
  chatMemory st1 !! key = Some l
  /\ sessionsInProcess st1 = sessionsInProcess st
  /\ (forall k, getHistory k st1 = getHistory k st)
  /\ ((arrays st1 = arrays st /\ chatMemory st1 = chatMemory st)
      \/ (chatMemory st !! key = None
          /\ l = length (arrays st)
          /\ arrays st1 = arrays st ++ [[]]
          /\ chatMemory st1 = <[key := l]> (chatMemory st))).
Proof.
  unfold session_entry. destruct (chatMemory_get key st) as [p|] eqn:Hget.
  - intros [= <- ->]. apply chatMemory_get_array in Hget. tauto.
  - intros [= <- <-]. split_and!.
    + unfold init_session. rewrite Hget. simpl. apply lookup_insert_eq.
    + unfold init_session. by rewrite Hget.
    + intros k. apply getHistory_init_session.
    + right. apply chatMemory_get_None in Hget as Hnone.
      unfold init_session. rewrite Hget. simpl. tauto.
Qed.

Lemma session_entry_inherited key st st1 :
  session_entry key st = (st1, Inherited) -> st1 = st.
Proof.
  unfold session_entry. destruct (chatMemory_get key st) as [p|]; congruence.
Qed.

(** A push through a reference is seen by the session that owns the array. *)
Lemma getHistory_push key st l turn :
  chatMemory st !! key = Some l ->
  (l < length (arrays st))%nat ->
  getHistory key (push l turn st) = getHistory key st ++ [turn].
Proof.
  intros Hkey Hlt. unfold getHistory, push. simpl. rewrite Hkey.
  rewrite list_lookup_alter_eq.
  destruct (lookup_lt_is_Some_2 (arrays st) l Hlt) as [a Ha]. by rewrite Ha.
Qed.

Lemma getHistory_push_other k st l l' turn :
  chatMemory st !! k = Some l' -> l' <> l ->
  getHistory k (push l turn st) = getHistory k st.
Proof.
  intros Hk Hne. unfold getHistory, push. simpl. rewrite Hk.
  by rewrite list_lookup_alter_ne.
Qed.

Lemma getHistory_push_absent k st l turn :
  chatMemory st !! k = None -> getHistory k (push l turn st) = getHistory k st.
Proof. intros Hk. unfold getHistory, push. simpl. by rewrite Hk. Qed.

Lemma well_formed_initial : well_formed initial_state.
Proof. split; intros *; simpl; by rewrite lookup_empty. Qed.

Lemma well_formed_lock key st : well_formed st -> well_formed (lock key st).
Proof. done. Qed.

Lemma well_formed_unlock key st : well_formed st -> well_formed (unlock key st).
Proof. done. Qed.

Lemma well_formed_push l turn st : well_formed st -> well_formed (push l turn st).
Proof.
  intros [Hv Hi]. split; simpl; [| done].
  intros key l0 H. rewrite length_alter. eauto.
Qed.

Lemma well_formed_session_entry key st st1 p :
  session_entry key st = (st1, p) -> well_formed st -> well_formed st1.
Proof.
  unfold session_entry. destruct (chatMemory_get key st) as [p0|] eqn:Hget.
  - by intros [= <- _].
  - intros [= <- _] [Hv Hi]. apply chatMemory_get_None in Hget as Hnone.
    unfold init_session. rewrite Hget. split; simpl.
    + intros k l. rewrite length_app. simpl. rewrite lookup_insert.
      destruct (decide (key = k)) as [-> | Hne]; [intros [= <-]; lia |].
      intros Hk. apply Hv in Hk. lia.
    + intros k1 k2 l. rewrite !lookup_insert.
      destruct (decide (key = k1)) as [Heq1 | Hne1];
        destruct (decide (key = k2)) as [Heq2 | Hne2].
      * congruence.
      * intros [= <-] Hk. apply Hv in Hk. lia.
      * intros Hk [= <-]. apply Hv in Hk. lia.
      * apply Hi.
Qed.

End StateFacts.

Create HintDb relay_state discriminated.
#[global] Hint Resolve well_formed_initial well_formed_lock well_formed_unlock
  well_formed_push : relay_state.

(** ** Facts about the handler *)

Section HandlerFacts.

Implicit Types (st : State) (body : Body) (f : Frame).

Lemma handler_busy body st :
  currentSessionId body ∈ sessionsInProcess st ->
  handler body st = (st, Completed (json_error busy_text (status 429 new_response))).
Proof.
  intros Hin. unfold handler. apply isLocked_true in Hin. by rewrite Hin.
Qed.

Lemma handler_admitted body st :
  currentSessionId body ∉ sessionsInProcess st ->
  handler body st
  = after_admission body (currentSessionId body) (lock (currentSessionId body) st).
Proof.
  intros Hout. unfold handler. apply isLocked_false in Hout. by rewrite Hout.
Qed.

(** An exception thrown before the streaming head is set is answered with
    status 500 and the text of the exception. *)
Lemma catch_before_head text :
  lit text <> [] ->
  catch_block (TypeError text) new_response
  = json_error (lit text) (status 500 new_response).
Proof.
  intros Hne. unfold catch_block, TypeError, or_default.
  cbn [headersSent new_response negb error_message].
  destruct (lit text) as [| c rest]; [by destruct Hne | reflexivity].
Qed.

Lemma finally_json key st text code :
  key ∉ sessionsInProcess st ->
  completed (finally_block key (lock key st) (json_error text (status code new_response)))
  = (st, Completed (json_error text (status code new_response))).
Proof.
  intros Hfree. unfold completed, finally_block. cbn [fst snd].
  rewrite unlock_lock by exact Hfree. reflexivity.
Qed.

Lemma handler_no_message body st :
  currentSessionId body ∉ sessionsInProcess st ->
  truthy (message body) = false ->
  handler body st
  = (st, Completed (json_error no_message_text (status 400 new_response))).
Proof.
  intros Hout Hfalsy. rewrite handler_admitted by exact Hout.
  unfold after_admission, try_block. rewrite Hfalsy. cbn [negb].
  by apply finally_json.
Qed.

(** A message that is truthy and not a string has no method [replace]: the
    exception is caught before the streaming head is set. *)
Lemma handler_not_a_string body st :
  currentSessionId body ∉ sessionsInProcess st ->
  truthy (message body) = true ->
  (forall s, message body <> JsString s) ->
  handler body st
  = (st, Completed (json_error (lit "msg.replace is not a function")
                      (status 500 new_response))).
Proof.
  intros Hout Htruthy Hns. rewrite handler_admitted by exact Hout.
  unfold after_admission, try_block. rewrite Htruthy. cbn [negb].
  assert (cleanUserMessage_value (message body)
          = Throw (TypeError "msg.replace is not a function")) as ->.
  { destruct (message body) as [| | b | n | s |]; try discriminate; try reflexivity.
    exfalso. by eapply Hns. }
  rewrite catch_before_head by (vm_compute; discriminate).
  by apply finally_json.
Qed.

(** A session id that names an inherited property reads a value that cannot
    be iterated. *)
Lemma handler_inherited body st s :
  currentSessionId body ∉ sessionsInProcess st ->
  message body = JsString s -> s <> [] ->
  chatMemory_get (currentSessionId body) st = Some Inherited ->
  handler body st
  = (st, Completed (json_error (lit "history is not iterable")
                      (status 500 new_response))).
Proof.
  intros Hout Hm Hs Hget. rewrite handler_admitted by exact Hout.
  unfold after_admission, try_block. rewrite Hm.
  destruct s as [| c s]; [exfalso; apply Hs; reflexivity |].
  cbn [truthy truthy_string negb cleanUserMessage_value].
  unfold session_entry.
  replace (chatMemory_get (currentSessionId body) (lock (currentSessionId body) st))
    with (chatMemory_get (currentSessionId body) st) by reflexivity.
  rewrite Hget.
  rewrite catch_before_head by (vm_compute; discriminate).
  by apply finally_json.
Qed.

(** Otherwise the handler sets the streaming head and waits for [create]. *)
Lemma handler_accepts body st s :
  currentSessionId body ∉ sessionsInProcess st ->
  message body = JsString s -> s <> [] ->
  chatMemory_get (currentSessionId body) st <> Some Inherited ->
  exists st1 l,
    session_entry (currentSessionId body) (lock (currentSessionId body) st)
    = (st1, ArrayRef l)
    /\ handler body st
       = (st1, Suspended
                 (mkFrame (currentSessionId body) (cleanUserMessage s) l
                    (buildMessagesForTogether (array_at l st1) (cleanUserMessage s))
                    [] (writeHead 200 event_stream_headers new_response)
                    AwaitCreate)).
Proof.
  intros Hout Hm Hs Hget. rewrite handler_admitted by exact Hout.
  unfold after_admission, try_block. rewrite Hm.
  destruct s as [| c s]; [exfalso; apply Hs; reflexivity |].
  cbn [truthy truthy_string negb cleanUserMessage_value].
  destruct (session_entry (currentSessionId body) (lock (currentSessionId body) st))
    as [st1 [l |]] eqn:Hentry.
  - exists st1, l. split; reflexivity.
  - exfalso. apply Hget. revert Hentry. unfold session_entry.
    replace (chatMemory_get (currentSessionId body) (lock (currentSessionId body) st))
      with (chatMemory_get (currentSessionId body) st) by reflexivity.
    destruct (chatMemory_get (currentSessionId body) st) as [[l |] |]; congruence.
Qed.

(** Every way the handler can leave its synchronous part. *)
Lemma handler_cases body st :
  let key := currentSessionId body in
  ((key ∈ sessionsInProcess st)
   /\ handler body st = (st, Completed (json_error busy_text (status 429 new_response))))
  \/ ((key ∉ sessionsInProcess st)
      /\ exists text code,
           handler body st = (st, Completed (json_error text (status code new_response)))
           /\ (code = 400 \/ code = 500))
  \/ ((key ∉ sessionsInProcess st)
      /\ exists s st1 l,
           message body = JsString s /\ s <> []
           /\ session_entry key (lock key st) = (st1, ArrayRef l)
           /\ handler body st
              = (st1, Suspended
                        (mkFrame key (cleanUserMessage s) l
                           (buildMessagesForTogether (array_at l st1) (cleanUserMessage s))
                           [] (writeHead 200 event_stream_headers new_response)
                           AwaitCreate))).
Proof.
  intros key. destruct (decide (key ∈ sessionsInProcess st)) as [Hin | Hout].
  { left. split; [done |]. by apply handler_busy. }
  right. destruct (truthy (message body)) eqn:Htruthy.
  2:{ left. split; [done |]. eexists _, 400. split; [by apply handler_no_message | tauto]. }
  destruct (message body) as [| | b | n | s |] eqn:Hm; try discriminate.
  1,2,4: left; split; [done |]; eexists _, 500;
    (split; [apply handler_not_a_string; [done | by rewrite Hm | by rewrite Hm] | tauto]).
  destruct s as [| c s]; [discriminate |].
  destruct (decide (chatMemory_get key st = Some Inherited)) as [Hinh | Hown].
  - left. split; [done |]. eexists _, 500.
    split; [by eapply handler_inherited | tauto].
  - right. split; [done |].
    destruct (handler_accepts body st (c :: s)) as (st1 & l & He & Hh); try done.
    by exists (c :: s), st1, l.
Qed.

End HandlerFacts.

(** ** Facts about the relay loop *)

Section LoopFacts.

Implicit Types (st : State) (f : Frame) (chunks : list Chunk).

Lemma forward_all_snoc texts text f :
  forward_all (texts ++ [text]) f = forward text (forward_all texts f).
Proof. unfold forward_all. by rewrite fold_left_app. Qed.

Lemma forward_all_fields texts f :
  frame_sessionId (forward_all texts f) = frame_sessionId f
  /\ cleanedMessage (forward_all texts f) = cleanedMessage f
  /\ sessionHistory (forward_all texts f) = sessionHistory f
  /\ messagesForTogether (forward_all texts f) = messagesForTogether f
  /\ accumulatedContent (forward_all texts f) = accumulatedContent f ++ concat texts
  /\ written (res (forward_all texts f)) = written (res f) ++ map data_frame texts
  /\ statusCode (res (forward_all texts f)) = statusCode (res f)
  /\ headers (res (forward_all texts f)) = headers (res f)
  /\ writableEnded (res (forward_all texts f)) = writableEnded (res f).
Proof.
  revert f. induction texts as [| text texts IH]; intros f.
  - simpl. rewrite !app_nil_r. tauto.
  - change (forward_all (text :: texts) f) with (forward_all texts (forward text f)).
    destruct (IH (forward text f)) as (H1 & H2 & H3 & H4 & H5 & H6 & H7 & H8 & H9).
    rewrite H1, H2, H3, H4, H5, H6, H7, H8, H9. simpl.
    rewrite <- !app_assoc. tauto.
Qed.

Lemma forward_all_suspended texts f :
  suspended_at f = AwaitChunk -> suspended_at (forward_all texts f) = AwaitChunk.
Proof.
  revert f. induction texts as [| text texts IH]; intros f Hf; [done |].
  change (forward_all (text :: texts) f) with (forward_all texts (forward text f)).
  by apply IH.
Qed.

Lemma forward_all_headersSent texts f :
  headersSent (res f) = true -> headersSent (res (forward_all texts f)) = true.
Proof.
  revert f. induction texts as [| text texts IH]; intros f Hf; [done |].
  change (forward_all (text :: texts) f) with (forward_all texts (forward text f)).
  by apply IH.
Qed.

(** A loop that meets no malformed chunk forwards the deltas, in order. *)
Lemma run_loop_clean chunks f :
  forallb (fun c => negb (malformed c)) chunks = true ->
  run_loop chunks f = (forward_all (deltas chunks) f, None).
Proof.
  revert f. induction chunks as [| c chunks IH]; intros f Hok; [done |].
  simpl in Hok. apply andb_true_iff in Hok as [Hc Hrest].
  unfold malformed in Hc. unfold deltas. simpl.
  destruct (chunk_content c) as [[text |] | e]; try discriminate; simpl.
  - rewrite IH by done. reflexivity.
  - by rewrite IH.
Qed.

(** A malformed chunk makes the loop body throw. *)
Lemma run_loop_malformed chunks f :
  forallb (fun c => negb (malformed c)) chunks = false ->
  exists f1 e, run_loop chunks f = (f1, Some e).
Proof.
  revert f. induction chunks as [| c chunks IH]; intros f Hbad; [discriminate |].
  simpl in Hbad. unfold malformed in Hbad. simpl.
  destruct (chunk_content c) as [[text |] | e]; simpl in Hbad; eauto.
Qed.

Lemma run_loop_fields chunks f f1 o :
  run_loop chunks f = (f1, o) ->
  frame_sessionId f1 = frame_sessionId f
  /\ cleanedMessage f1 = cleanedMessage f
  /\ sessionHistory f1 = sessionHistory f.
Proof.
  revert f. induction chunks as [| c chunks IH]; intros f; simpl.
  - by intros [= <- _].
  - destruct (chunk_content c) as [[text |] | e].
    + intros H. apply IH in H. simpl in H. tauto.
    + apply IH.
    + by intros [= <- _].
Qed.

Lemma feed_completed ev rest f st x :
  resume ev f st = Some (completed x) -> feed (ev :: rest) f st = Some x.
Proof. intros H. cbn [feed]. rewrite H. by destruct x. Qed.

Lemma feed_suspended ev rest f f1 st st1 :
  resume ev f st = Some (st1, Suspended f1) ->
  feed (ev :: rest) f st = feed rest f1 st1.
Proof. intros H. cbn [feed]. by rewrite H. Qed.

(** Handing the events of a stream to a call suspended in the loop runs the
    loop and what follows it: the call always completes. *)
Lemma feed_stream chunks fin f st :
  suspended_at f = AwaitChunk ->
  feed (map Yielded chunks ++ [final_event fin]) f st
  = Some (after_loop chunks fin f st).
Proof.
  revert f. induction chunks as [| c chunks IH]; intros f Hf.
  - cbn [map app]. apply feed_completed. unfold resume, after_loop. rewrite Hf.
    by destruct fin.
  - cbn [map app]. unfold after_loop. cbn [run_loop].
    destruct (chunk_content c) as [[text |] | e] eqn:Hc.
    + erewrite feed_suspended; [by apply IH |].
      unfold resume. by rewrite Hf, Hc.
    + erewrite feed_suspended; [by apply IH |].
      unfold resume. by rewrite Hf, Hc.
    + apply feed_completed. unfold resume. by rewrite Hf, Hc.
Qed.

Lemma serve_completed body up st st1 r :
  handler body st = (st1, Completed r) -> serve body up st = Some (st1, r).
Proof. intros H. unfold serve. by rewrite H. Qed.

Lemma serve_rejected body e st st1 f :
  handler body st = (st1, Suspended f) ->
  suspended_at f = AwaitCreate ->
  serve body (CreateRejects e) st = Some (fail e f st1).
Proof.
  intros H Hf. unfold serve. rewrite H. apply feed_completed.
  unfold resume. by rewrite Hf.
Qed.

Lemma serve_resolved body chunks fin st st1 f :
  handler body st = (st1, Suspended f) ->
  suspended_at f = AwaitCreate ->
  serve body (CreateResolves chunks fin) st
  = Some (after_loop chunks fin (set_stream f) st1).
Proof.
  intros H Hf. unfold serve. rewrite H.
  change (events_of (CreateResolves chunks fin))
    with (Resolved :: (map Yielded chunks ++ [final_event fin])).
  erewrite feed_suspended; [by apply feed_stream |].
  unfold resume. by rewrite Hf.
Qed.

Lemma handler_suspends_at_create body st st1 f :
  handler body st = (st1, Suspended f) -> suspended_at f = AwaitCreate.
Proof.
  intros H. destruct (handler_cases body st) as [[_ H1] | [[_ H1] | [_ H1]]].
  - congruence.
  - destruct H1 as (text & code & H1 & _). congruence.
  - destruct H1 as (s & st2 & l & _ & _ & _ & H1). rewrite H1 in H.
    by injection H as _ <-.
Qed.

(** Whatever the upstream does, the request is answered. *)
Lemma serve_total body up st : exists st1 r, serve body up st = Some (st1, r).
Proof.
  destruct (handler body st) as [st1 [r | f]] eqn:H.
  - exists st1, r. by apply serve_completed.
  - apply handler_suspends_at_create in H as Hf. destruct up as [e | chunks fin].
    + erewrite serve_rejected by done. destruct (fail e f st1); eauto.
    + erewrite serve_resolved by done. destruct (after_loop _ _ _ _); eauto.
Qed.

End LoopFacts.

(** ** One request served to its end *)

Section ServeFacts.

Implicit Types (st : State) (body : Body) (f : Frame) (chunks : list Chunk).

Lemma Some_pair_inv {A B : Type} (x : A * B) (a : A) (b : B) :
  Some x = Some (a, b) -> a = fst x /\ b = snd x.
Proof. by intros [= ->]. Qed.

Lemma accepted_true body st :
  accepted body st = true <-> exists st1 f, handler body st = (st1, Suspended f).
Proof.
  unfold accepted. destruct (handler body st) as [st1 [r | f]].
  - split; [discriminate | intros (? & ? & [=])].
  - split; eauto.
Qed.

(** Which requests are accepted: the session is idle, the message is a
    non-empty string, and the session id does not name an inherited
    property. *)
Lemma accepted_iff body st :
  accepted body st = true
  <-> (currentSessionId body ∉ sessionsInProcess st)
      /\ (exists s, message body = JsString s /\ s <> [])
      /\ chatMemory_get (currentSessionId body) st <> Some Inherited.
Proof.
  rewrite accepted_true. split.
  - intros (st1 & f & Hh).
    destruct (handler_cases body st) as [[_ H1] | [[_ H1] | [Hout H1]]].
    + congruence.
    + destruct H1 as (text & code & H1 & _). congruence.
    + destruct H1 as (s & st2 & l & Hm & Hs & _ & _).
      split; [exact Hout |]. split; [by exists s |].
      intros Hinh. rewrite (handler_inherited body st s Hout Hm Hs Hinh) in Hh.
      discriminate.
  - intros (Hout & (s & Hm & Hs) & Hown).
    destruct (handler_accepts body st s Hout Hm Hs Hown) as (st1 & l & _ & Hh).
    eauto.
Qed.

(** The shape of an accepted request and of the frame it leaves. *)
Lemma accepted_frame body st st1 f :
  handler body st = (st1, Suspended f) ->
  let key := currentSessionId body in
  (key ∉ sessionsInProcess st)
  /\ exists s l,
       message body = JsString s /\ s <> []
       /\ chatMemory st1 !! key = Some l
       /\ (forall k, getHistory k st1 = getHistory k st)
       /\ (well_formed st -> well_formed st1)
       /\ f = mkFrame key (cleanUserMessage s) l
                (buildMessagesForTogether (getHistory key st) (cleanUserMessage s))
                [] (writeHead 200 event_stream_headers new_response) AwaitCreate.
Proof.
  intros H key. destruct (handler_cases body st) as [[_ H1] | [[_ H1] | [Hout H1]]].
  - congruence.
  - destruct H1 as (text & code & H1 & _). congruence.
  - split; [exact Hout |].
    destruct H1 as (s & st2 & l & Hm & Hs & Hentry & H1).
    rewrite H1 in H. injection H as -> <-.
    apply session_entry_array in Hentry as Harr.
    destruct Harr as (Hkey & _ & Hhist & _).
    exists s, l. split_and!; try done.
    + intros Hwf. eapply well_formed_session_entry; [exact Hentry |].
      by apply well_formed_lock.
    + f_equal. f_equal. rewrite <- (getHistory_array_at _ _ _ Hkey). apply Hhist.
Qed.

Lemma handler_preserves_histories body st st1 o :
  handler body st = (st1, o) -> forall k, getHistory k st1 = getHistory k st.
Proof.
  intros H. destruct o as [r | f].
  - destruct (handler_cases body st) as [[_ H1] | [[_ H1] | [_ H1]]].
    + rewrite H1 in H. by injection H as <- _.
    + destruct H1 as (text & code & H1 & _). rewrite H1 in H. by injection H as <- _.
    + destruct H1 as (s & st2 & l & _ & _ & _ & H1). congruence.
  - apply accepted_frame in H. destruct H as (_ & s & l & _ & _ & _ & Hh & _). exact Hh.
Qed.

Lemma fail_state e f st : fst (fail e f st) = unlock (frame_sessionId f) st.
Proof. reflexivity. Qed.

Lemma fail_before_head e f st :
  headersSent (res f) = false ->
  snd (fail e f st)
  = json_error (or_default (error_message e) internal_error_text) (status 500 (res f)).
Proof. intros H. unfold fail, finally_block, catch_block. rewrite H. reflexivity. Qed.

Lemma fail_after_head e f st :
  headersSent (res f) = true ->
  snd (fail e f st)
  = end_ (write (error_frame (or_default (error_message e) stream_error_text)) (res f)).
Proof. intros H. unfold fail, finally_block, catch_block. rewrite H. reflexivity. Qed.

Lemma complete_state f st :
  fst (complete f st)
  = unlock (frame_sessionId f)
      (push (sessionHistory f) (mkMessage assistant (trim (accumulatedContent f)))
         (push (sessionHistory f) (mkMessage user (cleanedMessage f)) st)).
Proof. reflexivity. Qed.

Lemma complete_response f st :
  writableEnded (res f) = false ->
  snd (complete f st) = end_ (write done_frame (res f)).
Proof. intros H. unfold complete, finally_block. cbn [snd write writableEnded]. by rewrite H. Qed.

(** The loop leaves the histories alone unless it reaches the statements
    after it. *)
Lemma after_loop_unclean chunks fin f st :
  ends_cleanly (CreateResolves chunks fin) = false ->
  forall k, getHistory k (fst (after_loop chunks fin f st)) = getHistory k st.
Proof.
  intros Hup k. unfold after_loop.
  destruct (forallb (fun c => negb (malformed c)) chunks) eqn:Hok.
  - rewrite run_loop_clean by exact Hok.
    destruct fin as [| e]; [simpl in Hup; congruence | reflexivity].
  - destruct (run_loop_malformed chunks f Hok) as (f1 & e & ->). reflexivity.
Qed.

(** A request that is accepted and whose stream ends cleanly reaches the
    statements after the loop, with every delta forwarded. *)
Lemma serve_success body chunks st st1 f :
  handler body st = (st1, Suspended f) ->
  forallb (fun c => negb (malformed c)) chunks = true ->
  serve body (CreateResolves chunks EndsNormally) st
  = Some (complete (forward_all (deltas chunks) (set_stream f)) st1).
Proof.
  intros H Hok. erewrite serve_resolved; [| exact H | by eapply handler_suspends_at_create].
  unfold after_loop. by rewrite run_loop_clean.
Qed.

(** The two pushes after the loop reach the history of the session, through
    the reference the call holds; no other history changes. *)
Lemma complete_history f st key :
  well_formed st ->
  frame_sessionId f = key ->
  chatMemory st !! key = Some (sessionHistory f) ->
  getHistory key (fst (complete f st))
  = getHistory key st
    ++ [mkMessage user (cleanedMessage f);
        mkMessage assistant (trim (accumulatedContent f))].
Proof.
  intros [Hv _] <- Hkey. rewrite complete_state.
  change (getHistory ?k (unlock _ ?x)) with (getHistory k x).
  apply Hv in Hkey as Hlt.
  rewrite getHistory_push; [| exact Hkey | by cbn [push arrays]; rewrite length_alter].
  rewrite getHistory_push by done. by rewrite <- app_assoc.
Qed.

Lemma complete_history_other f st k :
  well_formed st ->
  chatMemory st !! frame_sessionId f = Some (sessionHistory f) ->
  k <> frame_sessionId f ->
  getHistory k (fst (complete f st)) = getHistory k st.
Proof.
  intros [Hv Hi] Hkey Hne. rewrite complete_state.
  change (getHistory ?k (unlock _ ?x)) with (getHistory k x).
  destruct (chatMemory st !! k) as [l |] eqn:Hk.
  - assert (l <> sessionHistory f) as Hl.
    { intros ->. apply Hne. by eapply Hi. }
    rewrite (getHistory_push_other k _ _ l); [| exact Hk | exact Hl].
    by rewrite (getHistory_push_other k _ _ l).
  - rewrite getHistory_push_absent by exact Hk.
    by rewrite getHistory_push_absent.
Qed.

(** The frame with which an accepted request leaves the loop when the stream
    ends cleanly: every delta has been forwarded and accumulated, and the
    response is still the open event stream. *)
Lemma success_frame body chunks st st1 f :
  handler body st = (st1, Suspended f) ->
  ends_cleanly (CreateResolves chunks EndsNormally) = true ->
  let g := forward_all (deltas chunks) (set_stream f) in
  serve body (CreateResolves chunks EndsNormally) st = Some (complete g st1)
  /\ frame_sessionId g = currentSessionId body
  /\ sessionHistory g = sessionHistory f
  /\ cleanedMessage g = cleanedMessage f
  /\ accumulatedContent g = concat (deltas chunks)
  /\ written (res g) = map data_frame (deltas chunks)
  /\ statusCode (res g) = 200
  /\ headers (res g) = event_stream_headers
  /\ writableEnded (res g) = false.
Proof.
  intros Hh Hok g. cbn [ends_cleanly] in Hok.
  split; [by apply serve_success |].
  apply accepted_frame in Hh as (_ & s & l & _ & _ & _ & _ & _ & ->).
  destruct (forward_all_fields (deltas chunks)
              (set_stream
                 (mkFrame (currentSessionId body) (cleanUserMessage s) l
                    (buildMessagesForTogether (getHistory (currentSessionId body) st)
                       (cleanUserMessage s))
                    [] (writeHead 200 event_stream_headers new_response) AwaitCreate)))
    as (H1 & H2 & H3 & _ & H5 & H6 & H7 & H8 & H9).
  by split_and!.
Qed.

(** What such a request stores, and what it has written by then. *)
Lemma success_history body s chunks st :
  well_formed st ->
  accepted body st = true ->
  message body = JsString s ->
  ends_cleanly (CreateResolves chunks EndsNormally) = true ->
  exists st1 r,
    serve body (CreateResolves chunks EndsNormally) st = Some (st1, r)
    /\ written r = map data_frame (deltas chunks) ++ [done_frame]
    /\ getHistory (currentSessionId body) st1
       = getHistory (currentSessionId body) st
         ++ [mkMessage user (cleanUserMessage s);
             mkMessage assistant (trim (concat (deltas chunks)))].
Proof.
  intros Hwf Hacc Hm Hok. apply accepted_true in Hacc as (st0 & f & Hh).
  destruct (success_frame _ _ _ _ _ Hh Hok)
    as (Hserve & Hsid & Hsh & Hcl & Hac & Hw & _ & _ & He).
  set (g := forward_all (deltas chunks) (set_stream f)) in *.
  exists (fst (complete g st0)), (snd (complete g st0)).
  split; [by destruct (complete g st0) |]. split.
  - rewrite complete_response by exact He. cbn [written end_ write]. by rewrite Hw.
  - apply accepted_frame in Hh as (_ & s' & l & Hm' & _ & Hkey & Hhist & Hwf1 & Hf).
    rewrite Hm in Hm'. injection Hm' as <-.
    rewrite (complete_history _ _ (currentSessionId body)).
    + rewrite Hcl, Hac, Hhist, Hf. reflexivity.
    + by apply Hwf1.
    + exact Hsid.
    + rewrite Hsh, Hf. exact Hkey.
Qed.

End ServeFacts.

(** ** The properties of the relay *)

Section RelayClaims.

Implicit Types (st : State) (body : Body) (f : Frame) (chunks : list Chunk).

(** A response that is a JSON error document is not an event stream. *)
Lemma json_error_not_event_stream code text r :
  is_json_error code text r -> is_event_stream r = false.
Proof.
  intros (_ & Hh & _). unfold is_event_stream. rewrite Hh.
  apply bool_decide_eq_false. rewrite list_elem_of_singleton.
  intros H. apply (f_equal snd) in H. revert H. vm_compute. discriminate.
Qed.

Lemma is_json_error_intro code text :
  is_json_error code text (json_error text (status code new_response)).
Proof. by split_and!. Qed.

(** C1, as the code has it.  The handler sets the streaming head before it
    calls [create].  When the call of [create] is rejected, nothing has been
    written to the caller yet, but [res.headersSent] is already true: the
    [catch] block takes its second branch, and the caller receives status 200
    and an event stream whose only frame is the error event, not status 500
    and a JSON document. *)
Theorem C1_rejected_create_is_streamed body st s e :
  currentSessionId body ∉ sessionsInProcess st ->
  message body = JsString s -> s <> [] ->
  chatMemory_get (currentSessionId body) st <> Some Inherited ->
  exists st1 f r,
    handler body st = (st1, Suspended f)
    /\ written (res f) = []
    /\ serve body (CreateRejects e) st = Some (unlock (currentSessionId body) st1, r)
    /\ statusCode r = 200
    /\ is_event_stream r = true
    /\ written r = [error_frame (or_default (error_message e) stream_error_text)]
    /\ writableEnded r = true
    /\ forall code text, ~ is_json_error code text r.
Proof.
  intros Hout Hm Hs Hget.
  destruct (handler_accepts body st s Hout Hm Hs Hget) as (st1 & l & _ & Hh).
  eexists st1, _, _. split; [exact Hh |]. split; [reflexivity |].
  split.
  { erewrite serve_rejected; [| exact Hh | reflexivity]. reflexivity. }
  split_and!; try reflexivity.
  intros code text Hjson. apply json_error_not_event_stream in Hjson.
  revert Hjson. vm_compute. discriminate.
Qed.

Lemma C1_rejected_create_is_streamed_witness :
  let body := mkBody (JsString (lit "hola")) (Some (lit "s1")) in
  let e := mkError (Some (lit "Unauthorized")) in
  ((currentSessionId body ∉ sessionsInProcess initial_state)
   /\ message body = JsString (lit "hola") /\ lit "hola" <> []
   /\ chatMemory_get (currentSessionId body) initial_state <> Some Inherited)
  /\ exists st1 f r,
       handler body initial_state = (st1, Suspended f)
       /\ written (res f) = []
       /\ serve body (CreateRejects e) initial_state
          = Some (unlock (currentSessionId body) st1, r)
       /\ statusCode r = 200
       /\ is_event_stream r = true
       /\ written r = [error_frame (or_default (error_message e) stream_error_text)]
       /\ writableEnded r = true
       /\ forall code text, ~ is_json_error code text r.
Proof.
  intros body e.
  assert (currentSessionId body ∉ sessionsInProcess initial_state) as H1
    by (apply isLocked_false; vm_compute; reflexivity).
  assert (lit "hola" <> []) as H2 by (vm_compute; discriminate).
  assert (chatMemory_get (currentSessionId body) initial_state <> Some Inherited) as H3
    by (vm_compute; discriminate).
  split; [by split_and! |].
  exact (C1_rejected_create_is_streamed body initial_state (lit "hola") e
           H1 eq_refl H2 H3).
Defined.

(** C2.  A request for a session whose id is in the lock set is answered at
    once with status 429 and a JSON error document, whatever the upstream
    would do: the state (lock set, histories, arrays) is returned as it was
    and the response is no event stream.  For a session whose id is not in
    the set, the rest of the handler runs on the state in which the id has
    been added. *)
Theorem C2_admission body st :
  let key := currentSessionId body in
  (key ∈ sessionsInProcess st ->
     exists r,
       handler body st = (st, Completed r)
       /\ (forall up, serve body up st = Some (st, r))
       /\ is_json_error 429 busy_text r
       /\ is_event_stream r = false)
  /\ (key ∉ sessionsInProcess st ->
      (key ∈ sessionsInProcess (lock key st))
      /\ handler body st = after_admission body key (lock key st)).
Proof.
  intros key. split.
  - intros Hin. apply handler_busy in Hin as Hh.
    eexists. split; [exact Hh |]. split_and!.
    + intros up. by apply serve_completed.
    + apply is_json_error_intro.
    + eapply json_error_not_event_stream, is_json_error_intro.
  - intros Hout. split; [apply locked_after_lock | by apply handler_admitted].
Qed.

Lemma C2_admission_witness :
  let body := mkBody (JsString (lit "hola")) (Some (lit "s1")) in
  let busy := lock (lit "s1") initial_state in
  ((currentSessionId body ∈ sessionsInProcess busy)
   /\ exists r,
        handler body busy = (busy, Completed r)
        /\ (forall up, serve body up busy = Some (busy, r))
        /\ is_json_error 429 busy_text r
        /\ is_event_stream r = false)
  /\ ((currentSessionId body ∉ sessionsInProcess initial_state)
      /\ (currentSessionId body ∈ sessionsInProcess (lock (currentSessionId body) initial_state))
      /\ handler body initial_state
         = after_admission body (currentSessionId body)
             (lock (currentSessionId body) initial_state)).
Proof.
  intros body busy.
  assert (currentSessionId body ∈ sessionsInProcess busy) as H1
    by (apply isLocked_true; vm_compute; reflexivity).
  assert (currentSessionId body ∉ sessionsInProcess initial_state) as H2
    by (apply isLocked_false; vm_compute; reflexivity).
  split.
  - split; [exact H1 |]. exact (proj1 (C2_admission body busy) H1).
  - split; [exact H2 |]. exact (proj2 (C2_admission body initial_state) H2).
Defined.

(** C5.  An admitted request whose [message] is absent or the empty string
    is answered with status 400 and a JSON error document; the streaming head
    is never set, and the state is back to what it was, the lock released: a
    later request for the same session is not answered 429. *)
Theorem C5_missing_message body st up :
  message body = JsUndefined \/ message body = JsString [] ->
  currentSessionId body ∉ sessionsInProcess st ->
  exists st1 r,
    serve body up st = Some (st1, r)
    /\ is_json_error 400 no_message_text r
    /\ is_event_stream r = false
    /\ st1 = st
    /\ (currentSessionId body ∉ sessionsInProcess st1)
    /\ (forall k, getHistory k st1 = getHistory k st)
    /\ forall body1 st2 r1,
         currentSessionId body1 = currentSessionId body ->
         handler body1 st1 = (st2, Completed r1) -> statusCode r1 <> 429.
Proof.
  intros Hm Hout.
  assert (truthy (message body) = false) as Hfalsy
    by (destruct Hm as [-> | ->]; reflexivity).
  exists st. eexists. split_and!.
  - apply serve_completed. by apply handler_no_message.
  - apply is_json_error_intro.
  - eapply json_error_not_event_stream, is_json_error_intro.
  - reflexivity.
  - exact Hout.
  - reflexivity.
  - intros body1 st2 r1 Hkey Hh.
    destruct (handler_cases body1 st) as [[Hin _] | [[_ H1] | [_ H1]]].
    + rewrite Hkey in Hin. contradiction.
    + destruct H1 as (text & code & H1 & Hcode). rewrite H1 in Hh.
      injection Hh as _ <-. cbn [statusCode json_error status].
      destruct Hcode as [-> | ->]; discriminate.
    + destruct H1 as (s & st3 & l & _ & _ & _ & H1). congruence.
Qed.

Lemma C5_missing_message_witness :
  let body := mkBody JsUndefined (Some (lit "s1")) in
  let up := CreateResolves [text_chunk (lit "El")] EndsNormally in
  (message body = JsUndefined \/ message body = JsString [])
  /\ (currentSessionId body ∉ sessionsInProcess initial_state)
  /\ exists st1 r,
       serve body up initial_state = Some (st1, r)
       /\ is_json_error 400 no_message_text r
       /\ is_event_stream r = false
       /\ st1 = initial_state
       /\ (currentSessionId body ∉ sessionsInProcess st1)
       /\ (forall k, getHistory k st1 = getHistory k initial_state)
       /\ forall body1 st2 r1,
            currentSessionId body1 = currentSessionId body ->
            handler body1 st1 = (st2, Completed r1) -> statusCode r1 <> 429.
Proof.
  intros body up.
  assert (currentSessionId body ∉ sessionsInProcess initial_state) as H2
    by (apply isLocked_false; vm_compute; reflexivity).
  split; [by left |]. split; [exact H2 |].
  exact (C5_missing_message body initial_state up (or_introl eq_refl) H2).
Defined.

(** C3.  Whatever the request, it is answered; and unless the upstream
    accepted it and the stream ran to a normal end, the history of every
    session is what it was before: neither the user turn nor a partial reply
    is stored.  A stream that breaks after some deltas is one such case. *)
Theorem C3_failure_commits_nothing body up st :
  ends_cleanly up = false ->
  exists st1 r,
    serve body up st = Some (st1, r)
    /\ forall k, getHistory k st1 = getHistory k st.
Proof.
  intros Hup. destruct (handler body st) as [st1 [r | f]] eqn:Hh.
  - exists st1, r. split; [by apply serve_completed |].
    by eapply handler_preserves_histories.
  - apply handler_suspends_at_create in Hh as Hf.
    pose proof (handler_preserves_histories _ _ _ _ Hh) as Hhist.
    destruct up as [e | chunks fin].
    + exists (fst (fail e f st1)), (snd (fail e f st1)).
      split; [erewrite serve_rejected by done; by destruct (fail e f st1) |].
      intros k. rewrite <- Hhist. reflexivity.
    + exists (fst (after_loop chunks fin (set_stream f) st1)),
        (snd (after_loop chunks fin (set_stream f) st1)).
      split; [erewrite serve_resolved by done; by destruct (after_loop _ _ _ _) |].
      intros k. rewrite <- Hhist. by apply after_loop_unclean.
Qed.

Lemma C3_failure_commits_nothing_witness :
  let body := mkBody (JsString (lit "hola")) (Some (lit "s1")) in
  let up :=
    CreateResolves [text_chunk (lit "El"); text_chunk (lit " saldo")]
      (Breaks (mkError (Some (lit "socket hang up")))) in
  ends_cleanly up = false
  /\ exists st1 r,
       serve body up initial_state = Some (st1, r)
       /\ forall k, getHistory k st1 = getHistory k initial_state.
Proof.
  intros body up. split; [reflexivity |].
  exact (C3_failure_commits_nothing body up initial_state eq_refl).
Defined.





(** C10.  The test [!message] looks at the raw field.  A non-empty string is
    never answered 400, whatever it sanitizes to.  When it sanitizes to the
    empty string (as do [@bob] and [Usuario:]), the request of an idle
    session is accepted: the streaming head is set, the last message of the
    completion request is a user message with empty content, and after a
    clean stream a user turn with empty content is stored. *)
Theorem C10_validation_before_sanitizing :
  (cleanUserMessage (lit "@bob") = [] /\ cleanUserMessage (lit "Usuario:") = [])
  /\ forall body s st,
       message body = JsString s -> s <> [] ->
       (forall st1 r, handler body st = (st1, Completed r) -> statusCode r <> 400)
       /\ (cleanUserMessage s = [] ->
           currentSessionId body ∉ sessionsInProcess st ->
           chatMemory_get (currentSessionId body) st <> Some Inherited ->
           well_formed st ->
           exists st1 f,
             handler body st = (st1, Suspended f)
             /\ statusCode (res f) = 200
             /\ is_event_stream (res f) = true
             /\ headersSent (res f) = true
             /\ messagesForTogether f
                = [mkMessage system systemPrompt]
                  ++ getHistory (currentSessionId body) st ++ [mkMessage user []]
             /\ forall chunks,
                  ends_cleanly (CreateResolves chunks EndsNormally) = true ->
                  exists st2 r,
                    serve body (CreateResolves chunks EndsNormally) st = Some (st2, r)
                    /\ getHistory (currentSessionId body) st2
                       = getHistory (currentSessionId body) st
                         ++ [mkMessage user [];
                             mkMessage assistant (trim (concat (deltas chunks)))]).
Proof.
  split; [split; vm_compute; reflexivity |].
  intros body s st Hm Hs. split.
  - intros st1 r Hh.
    destruct (decide (currentSessionId body ∈ sessionsInProcess st)) as [Hin | Hout].
    { rewrite handler_busy in Hh by exact Hin. by injection Hh as _ <-. }
    destruct (decide (chatMemory_get (currentSessionId body) st = Some Inherited))
      as [Hinh | Hown].
    + rewrite (handler_inherited _ _ s) in Hh by done. by injection Hh as _ <-.
    + destruct (handler_accepts body st s Hout Hm Hs Hown) as (st2 & l & _ & H2).
      congruence.
  - intros Hclean Hout Hown Hwf.
    destruct (handler_accepts body st s Hout Hm Hs Hown) as (st1 & l & _ & Hh).
    pose proof (accepted_frame _ _ _ _ Hh) as (_ & s' & l' & Hm' & _ & _ & _ & _ & Hf).
    rewrite Hm in Hm'. injection Hm' as <-.
    eexists st1, _. split; [exact Hh |]. rewrite Hf, Hclean.
    split_and!; try reflexivity.
    + cbn [messagesForTogether]. unfold buildMessagesForTogether.
      f_equal. f_equal. clear. induction (getHistory _ _) as [| [ro co] h IH]; [done |].
      cbn [map role content]. by rewrite IH.
    + intros chunks Hok.
      assert (accepted body st = true) as Hacc by (apply accepted_true; eauto).
      destruct (success_history body s chunks st Hwf Hacc Hm Hok)
        as (st2 & r & Hserve & _ & Hhist).
      exists st2, r. split; [exact Hserve |]. by rewrite Hhist, Hclean.
Qed.

Lemma C10_validation_before_sanitizing_witness :
  let body := mkBody (JsString (lit "@bob")) None in
  let key := currentSessionId body in
  (message body = JsString (lit "@bob")
   /\ lit "@bob" <> []
   /\ cleanUserMessage (lit "@bob") = []
   /\ (key ∉ sessionsInProcess initial_state)
   /\ chatMemory_get key initial_state <> Some Inherited
   /\ well_formed initial_state)
  /\ (forall st1 r, handler body initial_state = (st1, Completed r) -> statusCode r <> 400)
  /\ exists st1 f,
       handler body initial_state = (st1, Suspended f)
       /\ statusCode (res f) = 200
       /\ is_event_stream (res f) = true
       /\ headersSent (res f) = true
       /\ messagesForTogether f
          = [mkMessage system systemPrompt]
            ++ getHistory key initial_state ++ [mkMessage user []]
       /\ forall chunks,
            ends_cleanly (CreateResolves chunks EndsNormally) = true ->
            exists st2 r,
              serve body (CreateResolves chunks EndsNormally) initial_state
              = Some (st2, r)
              /\ getHistory key st2
                 = getHistory key initial_state
                   ++ [mkMessage user [];
                       mkMessage assistant (trim (concat (deltas chunks)))].
Proof.
  intros body key.
  assert (lit "@bob" <> []) as H1 by (vm_compute; discriminate).
  assert (cleanUserMessage (lit "@bob") = []) as H2 by (vm_compute; reflexivity).
  assert (key ∉ sessionsInProcess initial_state) as H3
    by (apply isLocked_false; vm_compute; reflexivity).
  assert (chatMemory_get key initial_state <> Some Inherited) as H4
    by (vm_compute; discriminate).
  split; [split_and!; try done; apply well_formed_initial |].
  destruct (proj2 C10_validation_before_sanitizing body (lit "@bob") initial_state
              eq_refl H1) as [Hnot400 Hrest].
  split; [exact Hnot400 |].
  exact (Hrest H2 H3 H4 well_formed_initial).
Defined.

End RelayClaims.

(** ** The server as a whole *)

Section SystemFacts.

Implicit Types (st : State) (f : Frame) (sys : System) (h : list Message).

Lemma alternating_app_pair h u a :
  alternating h = true ->
  alternating (h ++ [mkMessage user u; mkMessage assistant a]) = true.
Proof.
  assert (forall n h, (length h <= n)%nat -> alternating h = true ->
            alternating (h ++ [mkMessage user u; mkMessage assistant a]) = true) as Hn.
  { clear h. induction n as [| n IH]; intros h Hlen Hh.
    - destruct h; [reflexivity | simpl in Hlen; lia].
    - destruct h as [| x [| y h]]; [reflexivity | discriminate |].
      cbn [alternating app] in *.
      apply andb_true_iff in Hh as [Hxy Hh]. rewrite Hxy. cbn [andb].
      apply IH; [simpl in Hlen; lia | exact Hh]. }
  intros Hh. by eapply Hn.
Qed.

Lemma alternating_even h :
  alternating h = true -> Nat.even (length h) = true.
Proof.
  assert (forall n h, (length h <= n)%nat -> alternating h = true ->
            Nat.even (length h) = true) as Hn.
  { clear h. induction n as [| n IH]; intros h Hlen Hh.
    - destruct h; [reflexivity | simpl in Hlen; lia].
    - destruct h as [| x [| y h]]; [reflexivity | discriminate |].
      cbn [alternating] in Hh. apply andb_true_iff in Hh as [_ Hh].
      cbn [length Nat.even]. apply IH; [simpl in Hlen; lia | exact Hh]. }
  intros Hh. by eapply Hn.
Qed.

Lemma elem_of_insert_inv {A : Type} (l : list A) (i : nat) (x y : A) :
  x ∈ <[i := y]> l -> x = y \/ x ∈ l.
Proof.
  intros Hx. apply list_elem_of_lookup in Hx as [j Hj].
  apply list_lookup_insert_Some in Hj as [(-> & -> & _) | (_ & Hj)].
  - by left.
  - right. by eapply list_elem_of_lookup_2.
Qed.

(** What resuming a call does to the store and to the frame. *)
Lemma resume_cases ev f st st1 o :
  resume ev f st = Some (st1, o) ->
  (exists f1, o = Suspended f1 /\ st1 = st
              /\ frame_sessionId f1 = frame_sessionId f
              /\ sessionHistory f1 = sessionHistory f)
  \/ (exists r, o = Completed r /\ st1 = unlock (frame_sessionId f) st)
  \/ (exists r, o = Completed r /\ ev = Ended /\ st1 = fst (complete f st)).
Proof.
  unfold resume. destruct (suspended_at f), ev as [| e | chunk |]; try discriminate.
  - intros [= <- <-]. left. by eexists.
  - intros [= <- <-]. right. left. by eexists.
  - intros [= <- <-]. right. left. by eexists.
  - destruct (chunk_content chunk) as [[text |] | e].
    + intros [= <- <-]. left. by eexists.
    + intros [= <- <-]. left. by eexists.
    + intros [= <- <-]. right. left. by eexists.
  - intros [= <- <-]. right. right. by eexists.
Qed.

Lemma coherent_initial : coherent initial_system.
Proof.
  split_and!.
  - apply well_formed_initial.
  - intros l h. cbn. by destruct l.
  - intros f Hf. by apply not_elem_of_nil in Hf.
Qed.

Lemma coherent_request body sys st o :
  coherent sys ->
  handler body (store sys) = (st, o) ->
  coherent (mkSystem st (match o with
                         | Suspended f => calls sys ++ [f]
                         | Completed _ => calls sys
                         end)).
Proof.
  intros (Hwf & Halt & Hcalls) Hh.
  destruct (handler_cases body (store sys)) as [[_ H1] | [[_ H1] | [_ H1]]].
  - rewrite H1 in Hh. injection Hh as <- <-. by split_and!.
  - destruct H1 as (text & code & H1 & _). rewrite H1 in Hh.
    injection Hh as <- <-. by split_and!.
  - destruct H1 as (s & st1 & l & _ & _ & Hentry & H1). rewrite H1 in Hh.
    injection Hh as <- <-.
    pose proof (well_formed_session_entry _ _ _ _ Hentry
                  (well_formed_lock _ _ Hwf)) as Hwf1.
    apply session_entry_array in Hentry as (Hkey & _ & _ & Hstore).
    split_and!; cbn [store calls].
    + exact Hwf1.
    + destruct Hstore as [[Ha _] | (_ & _ & Ha & _)]; rewrite Ha; cbn [lock arrays].
      * exact Halt.
      * intros l0 h Hl0. apply lookup_app_Some in Hl0 as [Hl0 | [_ Hl0]].
        -- by eapply Halt.
        -- apply list_lookup_singleton_Some in Hl0 as [_ <-]. reflexivity.
    + intros f Hf. apply elem_of_app in Hf as [Hf | Hf].
      * apply Hcalls in Hf.
        destruct Hstore as [[_ Hm] | (Hnone & _ & _ & Hm)]; rewrite Hm; cbn [lock chatMemory].
        -- exact Hf.
        -- cbn [lock chatMemory] in Hnone.
           rewrite lookup_insert_ne; [exact Hf | congruence].
      * apply list_elem_of_singleton in Hf as ->. exact Hkey.
Qed.

Lemma coherent_deliver i ev f sys st o :
  coherent sys ->
  calls sys !! i = Some f ->
  resume ev f (store sys) = Some (st, o) ->
  coherent (mkSystem st (match o with
                         | Suspended f1 => <[i := f1]> (calls sys)
                         | Completed _ => delete i (calls sys)
                         end)).
Proof.
  intros (Hwf & Halt & Hcalls) Hi Hr.
  assert (f ∈ calls sys) as Hf by (by eapply list_elem_of_lookup_2).
  apply resume_cases in Hr
    as [(f1 & -> & -> & Hsid & Hsh) | [(r & -> & ->) | (r & -> & _ & ->)]].
  - split_and!; cbn [store calls]; try done.
    intros g Hg. apply elem_of_insert_inv in Hg as [-> | Hg]; [| by apply Hcalls].
    rewrite Hsid, Hsh. by apply Hcalls.
  - split_and!; cbn [store calls]; try done.
    intros g Hg. apply list_elem_of_delete_inv in Hg. by apply Hcalls.
  - split_and!; cbn [store calls].
    + rewrite complete_state. auto with relay_state.
    + rewrite complete_state. cbn [unlock push arrays].
      intros l h. destruct (decide (sessionHistory f = l)) as [<- | Hne].
      * rewrite !list_lookup_alter_eq.
        destruct (arrays (store sys) !! sessionHistory f) as [h0 |] eqn:Hl;
          [| discriminate].
        cbn [fmap option_fmap option_map]. intros [= <-].
        rewrite <- app_assoc. apply alternating_app_pair. by eapply Halt.
      * rewrite !list_lookup_alter_ne by exact Hne. apply Halt.
    + intros g Hg. apply list_elem_of_delete_inv in Hg. by apply Hcalls.
Qed.

Lemma coherent_act a sys sys1 :
  coherent sys -> act a sys = Some sys1 -> coherent sys1.
Proof.
  intros Hc. destruct a as [body | i ev]; cbn [act].
  - destruct (handler body (store sys)) as [st o] eqn:Hh.
    pose proof (coherent_request _ _ _ _ Hc Hh) as Hc1.
    destruct o; intros [= <-]; exact Hc1.
  - destruct (calls sys !! i) as [f |] eqn:Hi; [| discriminate].
    destruct (resume ev f (store sys)) as [[st o] |] eqn:Hr; [| discriminate].
    pose proof (coherent_deliver _ _ _ _ _ _ Hc Hi Hr) as Hc1.
    destruct o; intros [= <-]; exact Hc1.
Qed.

Lemma coherent_run actions sys sys1 :
  coherent sys -> run actions sys = Some sys1 -> coherent sys1.
Proof.
  revert sys. induction actions as [| a actions IH]; intros sys Hc; cbn [run].
  - by intros [= <-].
  - destruct (act a sys) as [sys2 |] eqn:Ha; [| discriminate].
    apply IH. by eapply coherent_act.
Qed.

Lemma coherent_reachable sys : reachable sys -> coherent sys.
Proof. intros [actions Hrun]. eapply coherent_run; [apply coherent_initial | exact Hrun]. Qed.

Lemma coherent_history_alternating sys key :
  coherent sys -> alternating (getHistory key (store sys)) = true.
Proof.
  intros (_ & Halt & _). unfold getHistory.
  destruct (chatMemory (store sys) !! key) as [l |]; [| reflexivity].
  destruct (arrays (store sys) !! l) as [h |] eqn:Hl; [| reflexivity].
  by eapply Halt.
Qed.

(** One step of the server appends a whole exchange to one history, or
    leaves them all as they are. *)
Lemma act_history a sys sys1 key :
  coherent sys -> act a sys = Some sys1 ->
  getHistory key (store sys1) = getHistory key (store sys)
  \/ exists u a,
       getHistory key (store sys1)
       = getHistory key (store sys) ++ [mkMessage user u; mkMessage assistant a].
Proof.
  intros (Hwf & Halt & Hcalls). destruct a as [body | i ev]; cbn [act].
  - destruct (handler body (store sys)) as [st o] eqn:Hh.
    pose proof (handler_preserves_histories _ _ _ _ Hh key) as Hk.
    destruct o; intros [= <-]; by left.
  - destruct (calls sys !! i) as [f |] eqn:Hi; [| discriminate].
    assert (f ∈ calls sys) as Hf by (by eapply list_elem_of_lookup_2).
    apply Hcalls in Hf.
    destruct (resume ev f (store sys)) as [[st o] |] eqn:Hr; [| discriminate].
    assert (store sys1 = st -> getHistory key st = getHistory key (store sys)
      \/ exists u a, getHistory key st
           = getHistory key (store sys) ++ [mkMessage user u; mkMessage assistant a]) as Hgoal.
    { intros _. apply resume_cases in Hr
        as [(f1 & -> & -> & _) | [(r & -> & ->) | (r & -> & _ & ->)]].
      - by left.
      - by left.
      - destruct (decide (key = frame_sessionId f)) as [-> | Hne].
        + right. eexists _, _. by apply complete_history.
        + left. by apply complete_history_other. }
    destruct o; intros [= <-]; by apply Hgoal.
Qed.

End SystemFacts.

Section SystemClaims.

(** C4.  In every state the server can reach, by any interleaving of
    requests and upstream events, the history of every session consists of
    whole exchanges, a user turn followed by an assistant turn, so its length
    is even.  A step of the server either leaves the history as it is or
    appends one user turn followed by one assistant turn; and the normal end
    of the stream of a call does append the two turns of that call to the
    history of its session. *)
Theorem C4_histories_alternate sys key :
  reachable sys ->
  alternating (getHistory key (store sys)) = true
  /\ Nat.even (length (getHistory key (store sys))) = true
  /\ (forall sys1,
        step sys sys1 ->
        getHistory key (store sys1) = getHistory key (store sys)
        \/ exists u a,
             getHistory key (store sys1)
             = getHistory key (store sys)
               ++ [mkMessage user u; mkMessage assistant a])
  /\ (forall i f,
        calls sys !! i = Some f ->
        suspended_at f = AwaitChunk ->
        frame_sessionId f = key ->
        exists sys1,
          act (Deliver i Ended) sys = Some sys1
          /\ getHistory key (store sys1)
             = getHistory key (store sys)
               ++ [mkMessage user (cleanedMessage f);
                   mkMessage assistant (trim (accumulatedContent f))]).
Proof.
  intros Hreach. apply coherent_reachable in Hreach as Hc.
  pose proof (coherent_history_alternating sys key Hc) as Halt.
  split; [exact Halt |]. split; [by apply alternating_even |]. split.
  - intros sys1 [a Ha]. by eapply act_history.
  - intros i f Hi Hf Hkey. destruct Hc as (Hwf & _ & Hcalls).
    exists (mkSystem (fst (complete f (store sys))) (delete i (calls sys))).
    split.
    + cbn [act]. rewrite Hi. unfold resume. rewrite Hf. reflexivity.
    + cbn [store]. apply complete_history; [exact Hwf | exact Hkey |].
      rewrite <- Hkey. apply Hcalls. by eapply list_elem_of_lookup_2.
Qed.

Lemma C4_histories_alternate_witness :
  let b1 := mkBody (JsString (lit "Cuál es el saldo")) (Some (lit "s1")) in
  let b2 := mkBody (JsString (lit "hola")) (Some (lit "s2")) in
  let actions :=
    [ Request b1; Deliver 0 Resolved; Deliver 0 (Yielded (text_chunk (lit "El")));
      Request b2; Request b1; Deliver 0 Ended; Deliver 0 Resolved;
      Request b1; Deliver 1 Resolved; Deliver 1 (Yielded (text_chunk (lit "Cero"))) ] in
  let sys := default initial_system (run actions initial_system) in
  let key := lit "s1" in
  (reachable sys /\ length (getHistory key (store sys)) = 2%nat)
  /\ (exists f sys1,
        calls sys !! 1%nat = Some f
        /\ suspended_at f = AwaitChunk
        /\ frame_sessionId f = key
        /\ act (Deliver 1 Ended) sys = Some sys1
        /\ length (getHistory key (store sys1)) = 4%nat)
  /\ alternating (getHistory key (store sys)) = true
  /\ Nat.even (length (getHistory key (store sys))) = true
  /\ (forall sys1,
        step sys sys1 ->
        getHistory key (store sys1) = getHistory key (store sys)
        \/ exists u a,
             getHistory key (store sys1)
             = getHistory key (store sys)
               ++ [mkMessage user u; mkMessage assistant a])
  /\ (forall i f,
        calls sys !! i = Some f ->
        suspended_at f = AwaitChunk ->
        frame_sessionId f = key ->
        exists sys1,
          act (Deliver i Ended) sys = Some sys1
          /\ getHistory key (store sys1)
             = getHistory key (store sys)
               ++ [mkMessage user (cleanedMessage f);
                   mkMessage assistant (trim (accumulatedContent f))]).
Proof.
  intros b1 b2 actions sys key.
  assert (reachable sys) as Hreach by (exists actions; vm_compute; reflexivity).
  split; [split; [exact Hreach | vm_compute; reflexivity] |].
  split.
  { eexists _, _. split_and!; vm_compute; reflexivity. }
  exact (C4_histories_alternate sys key Hreach).
Defined.

End SystemClaims.

(** ** Worked examples *)

Section Examples.

(** Closed statements are settled by evaluation. *)
Ltac by_evaluation := vm_compute; first [reflexivity | discriminate].

Example clean_marker_and_mention :
  cleanUserMessage (lit "INTERACCIÓN: pregunta del usuario: x@a-b.c y") = lit "x y".
Proof. by_evaluation. Qed.

(** A lone [@] is no mention, and an [@] inside a word starts one. *)
Example clean_lone_at :
  cleanUserMessage (lit "a @ b") = lit "a @ b"
  /\ cleanUserMessage (lit "mail me: ana@banco.com, ok") = lit "mail me: ana, ok".
Proof. split; by_evaluation. Qed.

(** One pass can leave a marker behind. *)
Example clean_leaves_marker :
  cleanUserMessage (lit "UsuUsuario:ario:") = lit "Usuario:"
  /\ cleanUserMessage (lit "Usuario@x:") = lit "Usuario:"
  /\ cleanUserMessage (lit "Usuario:") = [].
Proof. split_and!; by_evaluation. Qed.

(** The frame of a delta, code unit by code unit; a quote in the delta is
    escaped. *)
Example data_frame_text :
  data_frame (lit "El")
  = lit "data: {" ++ [34] ++ lit "response" ++ [34; 58; 34] ++ lit "El"
    ++ [34] ++ lit "}" ++ [10; 10]
  /\ data_frame [34; 10]
     = lit "data: {" ++ [34] ++ lit "response" ++ [34; 58; 34]
       ++ [92; 34; 92; 110] ++ [34] ++ lit "}" ++ [10; 10].
Proof. split; by_evaluation. Qed.

(** The end-to-end example of the specification. *)
Example serve_saldo :
  let body := mkBody (JsString (lit "Cuál es el saldo")) (Some (lit "s1")) in
  let up :=
    CreateResolves
      [text_chunk (lit "El"); text_chunk (lit " saldo"); text_chunk (lit " es cero.")]
      EndsNormally in
  exists st r,
    serve body up initial_state = Some (st, r)
    /\ written r
       = [data_frame (lit "El"); data_frame (lit " saldo");
          data_frame (lit " es cero."); done_frame]
    /\ getHistory (lit "s1") st
       = [mkMessage user (lit "Cuál es el saldo");
          mkMessage assistant (lit "El saldo es cero.")]
    /\ isLocked (lit "s1") st = false.
Proof. eexists _, _. split_and!; by_evaluation. Qed.

(** A stream that breaks after its first chunk: one [data:] frame, then the
    error event; nothing is stored and the lock is released. *)
Example serve_broken_stream :
  let body := mkBody (JsString (lit "hola")) (Some (lit "s1")) in
  let up :=
    CreateResolves [text_chunk (lit "El")]
      (Breaks (mkError (Some (lit "socket hang up")))) in
  exists st r,
    serve body up initial_state = Some (st, r)
    /\ statusCode r = 200
    /\ written r = [data_frame (lit "El"); error_frame (lit "socket hang up")]
    /\ writableEnded r = true
    /\ getHistory (lit "s1") st = []
    /\ isLocked (lit "s1") st = false.
Proof. eexists _, _. split_and!; by_evaluation. Qed.

(** A chunk whose first choice is [null] makes the loop body throw. *)
Example serve_malformed_chunk :
  let body := mkBody (JsString (lit "hola")) None in
  let up :=
    CreateResolves [text_chunk (lit "El"); mkChunk (Some [None]); text_chunk (lit "x")]
      EndsNormally in
  exists st r,
    serve body up initial_state = Some (st, r)
    /\ written r
       = [data_frame (lit "El");
          error_frame (lit "Cannot read properties of null (reading 'delta')")]
    /\ getHistory (lit "default") st = [].
Proof. eexists _, _. split_and!; by_evaluation. Qed.

(** Failures before the streaming head is set are answered with status 500:
    a message that is not a string, and a session id that names a property
    inherited from [Object.prototype]. *)
Example serve_internal_failures :
  let up := CreateResolves [] EndsNormally in
  (exists st r,
      serve (mkBody (JsNumber 5) None) up initial_state = Some (st, r)
      /\ is_json_error 500 (lit "msg.replace is not a function") r
      /\ isLocked (lit "default") st = false)
  /\ (exists st r,
         serve (mkBody (JsString (lit "hola")) (Some (lit "toString"))) up initial_state
         = Some (st, r)
         /\ is_json_error 500 (lit "history is not iterable") r
         /\ isLocked (lit "toString") st = false).
Proof.
  split; eexists _, _; (split; [vm_compute; reflexivity |]);
    (split; [| vm_compute; reflexivity]); unfold is_json_error; split_and!;
    vm_compute; reflexivity.
Qed.

(** Two requests for one session: the second arrives while the first is
    streaming and is rejected; after the first has completed, a third is
    accepted. *)
Example busy_then_free :
  let body := mkBody (JsString (lit "hola")) (Some (lit "s1")) in
  let sys1 :=
    default initial_system (run [Request body; Deliver 0 Resolved] initial_system) in
  let sys2 :=
    default initial_system
      (run [Deliver 0 (Yielded (text_chunk (lit "ok"))); Deliver 0 Ended] sys1) in
  length (calls sys1) = 1%nat
  /\ isLocked (lit "s1") (store sys1) = true
  /\ accepted body (store sys1) = false
  /\ handler body (store sys1)
     = (store sys1, Completed (json_error busy_text (status 429 new_response)))
  /\ calls sys2 = []
  /\ getHistory (lit "s1") (store sys2)
     = [mkMessage user (lit "hola"); mkMessage assistant (lit "ok")]
  /\ isLocked (lit "s1") (store sys2) = false
  /\ accepted body (store sys2) = true.
Proof. intros body sys1 sys2. split_and!; by_evaluation. Qed.

End Examples.

(** * Further properties *)

(** ** The sanitizer never leaves a mention, and only deletes *)

Section SanitizerExtras.

Implicit Types (s x y : js_string) (c : N).

Lemma replaceAll_sublist (matcher : js_string -> option nat) k s :
  replaceAll matcher k s `sublist_of` s.
Proof.
  revert k. induction s as [| c s IH]; intros k; cbn [replaceAll]; [done |].
  destruct k as [| k].
  - destruct (matcher (c :: s)) as [[| n] |].
    + by apply sublist_skip.
    + by apply sublist_cons.
    + by apply sublist_skip.
  - by apply sublist_cons.
Qed.

Lemma trimStart_suffix s : trimStart s `suffix_of` s.
Proof.
  induction s as [| c s IH]; cbn [trimStart]; [done |].
  destruct (isWhiteSpace c); [by apply suffix_cons_r | done].
Qed.

Lemma trimEnd_prefix s : trimEnd s `prefix_of` s.
Proof.
  unfold trimEnd. destruct (trimStart_suffix (rev s)) as [k Hk].
  exists (rev k). rewrite <- rev_app_distr, <- Hk. by rewrite rev_involutive.
Qed.

Lemma trim_sublist s : trim s `sublist_of` s.
Proof.
  unfold trim. transitivity (trimStart s).
  - destruct (trimEnd_prefix (trimStart s)) as [k Hk]. rewrite Hk at 2.
    by apply sublist_inserts_r.
  - destruct (trimStart_suffix s) as [k Hk]. rewrite Hk at 2.
    by apply sublist_inserts_l.
Qed.

(** Dropping a whole run of handle characters leaves none at the front. *)
Lemma handle_run_drop s : handle_run (drop (handle_run s) s) = O.
Proof.
  induction s as [| c s IH]; [reflexivity |]. cbn [handle_run].
  destruct (is_handle_char c) eqn:Hc; [exact IH |]. cbn [drop handle_run].
  by rewrite Hc.
Qed.

Lemma handle_run_app_ge x y : (handle_run x <= handle_run (x ++ y))%nat.
Proof.
  induction x as [| c x IH]; cbn [handle_run app]; [lia |].
  destruct (is_handle_char c); lia.
Qed.

(** The text left by the second pass starts with a handle character only if
    the text it read did. *)
Lemma remove_mentions_head s :
  handle_run s = O -> handle_run (remove_mentions s) = O.
Proof.
  unfold remove_mentions.
  assert (forall n s, (length s <= n)%nat -> handle_run s = O ->
            handle_run (replaceAll mention_match O s) = O) as Hn.
  { clear s. induction n as [| n IH]; intros s Hlen Hrun.
    - destruct s; [reflexivity | cbn [length] in Hlen; lia].
    - destruct s as [| c s]; [reflexivity |]. cbn [length] in Hlen.
      destruct (mention_match (c :: s)) as [k |] eqn:Hm.
      + apply mention_match_Some in Hm as Hs.
        destruct Hs as (rest & m & Heq & Hr & ->). injection Heq as -> ->.
        rewrite (replaceAll_match _ _ _ _ Hm). cbn [skipn].
        apply IH; [rewrite length_drop; lia |].
        rewrite <- Hr. apply handle_run_drop.
      + rewrite (replaceAll_keep _ _ _ Hm). cbn [handle_run] in *.
        by destruct (is_handle_char c). }
  by eapply Hn.
Qed.

(** No mention is left by the second pass. *)
Lemma remove_mentions_no_mention s : has_mention (remove_mentions s) = false.
Proof.
  unfold has_mention, remove_mentions.
  assert (forall n s, (length s <= n)%nat ->
            occurs mention_match (replaceAll mention_match O s) = false) as Hn.
  { clear s. induction n as [| n IH]; intros s Hlen.
    - destruct s; [reflexivity | cbn [length] in Hlen; lia].
    - destruct s as [| c s]; [reflexivity |]. cbn [length] in Hlen.
      destruct (mention_match (c :: s)) as [k |] eqn:Hm.
      + apply mention_match_Some in Hm as Hs.
        destruct Hs as (rest & m & Heq & Hr & ->). injection Heq as -> ->.
        rewrite (replaceAll_match _ _ _ _ Hm). cbn [skipn].
        apply IH. rewrite length_drop. lia.
      + rewrite (replaceAll_keep _ _ _ Hm). cbn [occurs].
        rewrite (IH s) by lia.
        assert (mention_match (c :: replaceAll mention_match O s) = None) as ->;
          [| reflexivity].
        unfold mention_match in *. destruct (c =? 64); [| reflexivity].
        destruct (handle_run s) eqn:Hr; [| discriminate].
        fold (remove_mentions s). by rewrite remove_mentions_head. }
  by eapply Hn.
Qed.

Lemma occurs_suffix (matcher : js_string -> option nat) x y :
  occurs matcher (x ++ y) = false -> occurs matcher y = false.
Proof.
  induction x as [| c x IH]; [done |]. cbn [occurs app].
  destruct (matcher (c :: x ++ y)); [discriminate | exact IH].
Qed.

Lemma occurs_mention_prefix x y :
  occurs mention_match (x ++ y) = false -> occurs mention_match x = false.
Proof.
  induction x as [| c x IH]; [reflexivity |]. cbn [occurs app].
  destruct (mention_match (c :: x ++ y)) eqn:Hm; [discriminate |].
  intros H. rewrite (IH H).
  assert (mention_match (c :: x) = None) as ->; [| reflexivity].
  unfold mention_match in *. destruct (c =? 64); [| reflexivity].
  pose proof (handle_run_app_ge x y) as Hge.
  destruct (handle_run (x ++ y)); [| discriminate].
  by destruct (handle_run x); [| lia].
Qed.

Lemma trim_no_mention s : has_mention s = false -> has_mention (trim s) = false.
Proof.
  unfold has_mention, trim. intros H.
  destruct (trimStart_suffix s) as [k Hk]. rewrite Hk in H.
  apply occurs_suffix in H.
  destruct (trimEnd_prefix (trimStart s)) as [q Hq]. rewrite Hq in H.
  by apply occurs_mention_prefix in H.
Qed.

(** X10.  A sanitized message never contains a mention: the second pass
    leaves none (it is idempotent, unlike the first), and trimming brings
    none back. *)
Theorem clean_has_no_mention s :
  has_mention (cleanUserMessage s) = false
  /\ remove_mentions (cleanUserMessage s) = cleanUserMessage s
  /\ remove_mentions (remove_mentions s) = remove_mentions s.
Proof.
  assert (has_mention (cleanUserMessage s) = false) as Hno.
  { unfold cleanUserMessage. apply trim_no_mention, remove_mentions_no_mention. }
  split; [exact Hno |]. split.
  - unfold remove_mentions. by apply replaceAll_no_occurrence.
  - unfold remove_mentions at 1. apply replaceAll_no_occurrence.
    apply remove_mentions_no_mention.
Qed.

(** X11.  The sanitizer only deletes: its result is the input with some code
    units left out, in the same order, and never longer. *)
Theorem clean_only_deletes s :
  cleanUserMessage s `sublist_of` s
  /\ (length (cleanUserMessage s) <= length s)%nat.
Proof.
  assert (cleanUserMessage s `sublist_of` s) as Hsub.
  { unfold cleanUserMessage, remove_mentions, remove_markers.
    etransitivity; [apply trim_sublist |].
    etransitivity; apply replaceAll_sublist. }
  split; [exact Hsub | by apply sublist_length].
Qed.

End SanitizerExtras.

(** ** The request assembled for the upstream *)

Section PromptExtras.

Implicit Types (history : list Message) (st : State) (body : Body).

Lemma copy_turns history :
  map (fun turn => mkMessage (role turn) (content turn)) history = history.
Proof.
  induction history as [| [ro co] history IH]; [reflexivity |].
  cbn [map role content]. by rewrite IH.
Qed.

Lemma buildMessages_eq history newMessage :
  buildMessagesForTogether history newMessage
  = mkMessage system systemPrompt :: history ++ [mkMessage user newMessage].
Proof. unfold buildMessagesForTogether. by rewrite copy_turns. Qed.


End PromptExtras.

(** ** Every way a request can end *)

Section OutcomeFacts.

Implicit Types (st : State) (body : Body) (f g : Frame) (chunks : list Chunk).

Lemma forward_all_cons text texts f :
  forward_all (text :: texts) f = forward_all texts (forward text f).
Proof. reflexivity. Qed.

(** The loop and what follows it, by how the stream fails, if it does. *)
Lemma after_loop_outcome chunks fin f st :
  after_loop chunks fin f st
  = match stream_failure chunks fin with
    | Some e => fail e (forward_all (deltas (before_failure chunks)) f) st
    | None => complete (forward_all (deltas chunks) f) st
    end.
Proof.
  unfold after_loop. revert f.
  induction chunks as [| c chunks IH]; intros f.
  - cbn [run_loop stream_failure before_failure deltas omap]. by destruct fin.
  - cbn [run_loop stream_failure before_failure]. unfold malformed, deltas.
    cbn [omap list_omap]. fold (deltas chunks).
    destruct (chunk_content c) as [[text |] | e] eqn:Hc.
    + rewrite IH. cbn [omap list_omap]. rewrite Hc. cbn [from_option].
      fold (deltas (before_failure chunks)).
      by destruct (stream_failure chunks fin).
    + rewrite IH. cbn [omap list_omap]. rewrite Hc.
      fold (deltas (before_failure chunks)).
      by destruct (stream_failure chunks fin).
    + reflexivity.
Qed.

(** A stream fails exactly when it does not end cleanly. *)
Lemma stream_failure_None chunks fin :
  stream_failure chunks fin = None
  <-> ends_cleanly (CreateResolves chunks fin) = true.
Proof.
  induction chunks as [| c chunks IH];
    cbn [stream_failure ends_cleanly forallb] in *.
  - destruct fin; split; intros H; first [reflexivity | discriminate H].
  - unfold malformed. destruct (chunk_content c); cbn [negb andb].
    + destruct fin; exact IH.
    + destruct fin; split; intros H; discriminate H.
Qed.

(** The response of a call in the loop: the open event stream, with one
    frame per delta forwarded so far. *)
Lemma stream_frame_fields body st st0 f texts :
  handler body st = (st0, Suspended f) ->
  let g := forward_all texts (set_stream f) in
  frame_sessionId g = currentSessionId body
  /\ sessionHistory g = sessionHistory f
  /\ statusCode (res g) = 200
  /\ headers (res g) = event_stream_headers
  /\ headersSent (res g) = true
  /\ writableEnded (res g) = false
  /\ written (res g) = map data_frame texts.
Proof.
  intros Hh g. apply accepted_frame in Hh as (_ & s & l & _ & _ & _ & _ & _ & ->).
  destruct (forward_all_fields texts
              (set_stream
                 (mkFrame (currentSessionId body) (cleanUserMessage s) l
                    (buildMessagesForTogether (getHistory (currentSessionId body) st)
                       (cleanUserMessage s))
                    [] (writeHead 200 event_stream_headers new_response) AwaitCreate)))
    as (H1 & _ & H3 & _ & _ & H6 & H7 & H8 & H9).
  split_and!; try done. by apply forward_all_headersSent.
Qed.

Lemma fail_stream_response e g st :
  headersSent (res g) = true ->
  let r := snd (fail e g st) in
  statusCode r = statusCode (res g)
  /\ headers r = headers (res g)
  /\ headersSent r = true
  /\ writableEnded r = true
  /\ written r
     = written (res g)
       ++ [error_frame (or_default (error_message e) stream_error_text)].
Proof. intros H r. unfold r. rewrite fail_after_head by exact H. by split_and!. Qed.

Lemma complete_stream_response g st :
  writableEnded (res g) = false ->
  let r := snd (complete g st) in
  statusCode r = statusCode (res g)
  /\ headers r = headers (res g)
  /\ headersSent r = true
  /\ writableEnded r = true
  /\ written r = written (res g) ++ [done_frame].
Proof. intros H r. unfold r. rewrite complete_response by exact H. by split_and!. Qed.

(** What an accepted request is answered, by what the upstream does. *)
Lemma accepted_response body up st st0 f :
  handler body st = (st0, Suspended f) ->
  exists st1 r texts final,
    serve body up st = Some (st1, r)
    /\ sessionsInProcess st1 = sessionsInProcess st0 ∖ {[currentSessionId body]}
    /\ statusCode r = 200
    /\ headers r = event_stream_headers
    /\ headersSent r = true
    /\ writableEnded r = true
    /\ written r = map data_frame texts ++ [final]
    /\ match up with
       | CreateRejects e =>
           texts = []
           /\ final = error_frame (or_default (error_message e) stream_error_text)
       | CreateResolves chunks fin =>
           match stream_failure chunks fin with
           | Some e =>
               texts = deltas (before_failure chunks)
               /\ final = error_frame (or_default (error_message e) stream_error_text)
           | None => texts = deltas chunks /\ final = done_frame
           end
       end.
Proof.
  intros Hh. apply handler_suspends_at_create in Hh as Hat.
  destruct up as [e | chunks fin].
  - pose proof (stream_frame_fields body st st0 f [] Hh)
      as (Hsid & _ & Hs & Hhd & Hsent & _ & Hw).
    change (forward_all [] (set_stream f)) with (set_stream f) in *.
    change (res (set_stream f)) with (res f) in *.
    change (frame_sessionId (set_stream f)) with (frame_sessionId f) in Hsid.
    destruct (fail_stream_response e f st0 Hsent) as (R1 & R2 & R3 & R4 & R5).
    eexists (fst (fail e f st0)), (snd (fail e f st0)), [], _.
    split; [erewrite serve_rejected by done; by destruct (fail e f st0) |].
    split; [rewrite fail_state; cbn [unlock sessionsInProcess]; by rewrite Hsid |].
    split_and!; try done; try congruence; by rewrite R5, Hw.
  - rewrite (serve_resolved _ _ _ _ _ _ Hh Hat), after_loop_outcome.
    destruct (stream_failure chunks fin) as [e |].
    + pose proof (stream_frame_fields body st st0 f (deltas (before_failure chunks)) Hh)
        as (Hsid & _ & Hs & Hhd & Hsent & _ & Hw).
      set (g := forward_all _ _) in *.
      destruct (fail_stream_response e g st0 Hsent) as (R1 & R2 & R3 & R4 & R5).
      eexists (fst (fail e g st0)), (snd (fail e g st0)), _, _.
      split; [by destruct (fail e g st0) |].
      split; [rewrite fail_state; cbn [unlock sessionsInProcess]; by rewrite Hsid |].
      split_and!; try done; try congruence; by rewrite R5, Hw.
    + pose proof (stream_frame_fields body st st0 f (deltas chunks) Hh)
        as (Hsid & _ & Hs & Hhd & _ & Hend & Hw).
      set (g := forward_all _ _) in *.
      destruct (complete_stream_response g st0 Hend) as (R1 & R2 & R3 & R4 & R5).
      eexists (fst (complete g st0)), (snd (complete g st0)), _, _.
      split; [by destruct (complete g st0) |].
      split; [rewrite complete_state; cbn [unlock push sessionsInProcess]; by rewrite Hsid |].
      split_and!; try done; try congruence; by rewrite R5, Hw.
Qed.

End OutcomeFacts.

Section OutcomeExtras.

Implicit Types (st : State) (body : Body) (f g : Frame) (chunks : list Chunk).

Lemma accepted_locks body st st0 f :
  handler body st = (st0, Suspended f) ->
  (currentSessionId body ∉ sessionsInProcess st)
  /\ sessionsInProcess st0 = {[currentSessionId body]} ∪ sessionsInProcess st.
Proof.
  intros Hh. destruct (handler_cases body st) as [[_ H1] | [[_ H1] | [Hout H1]]].
  - congruence.
  - destruct H1 as (text & code & H1 & _). congruence.
  - destruct H1 as (s & st2 & l & _ & _ & Hentry & H1). rewrite H1 in Hh.
    injection Hh as -> _. split; [exact Hout |].
    by apply session_entry_array in Hentry as (_ & -> & _).
Qed.

Lemma completed_on_arrival body st st1 r :
  handler body st = (st1, Completed r) ->
  st1 = st
  /\ exists code text,
       r = json_error text (status code new_response)
       /\ (code = 429 \/ code = 400 \/ code = 500).
Proof.
  intros Hh. destruct (handler_cases body st) as [[_ H1] | [[_ H1] | [_ H1]]].
  - rewrite H1 in Hh. injection Hh as <- <-. split; [done |].
    eexists 429, _. split; [done | tauto].
  - destruct H1 as (text & code & H1 & Hcode). rewrite H1 in Hh.
    injection Hh as <- <-. split; [done |]. exists code, text. split; [done | tauto].
  - destruct H1 as (s & st2 & l & _ & _ & _ & H1). congruence.
Qed.

Lemma serve_locks body up st :
  exists st1 r,
    serve body up st = Some (st1, r)
    /\ sessionsInProcess st1 = sessionsInProcess st.
Proof.
  destruct (handler body st) as [st0 [r | f]] eqn:Hh.
  - exists st0, r. split; [by apply serve_completed |].
    by apply completed_on_arrival in Hh as [-> _].
  - destruct (accepted_response body up st st0 f Hh)
      as (st1 & r & texts & final & Hserve & Hlocks & _).
    exists st1, r. split; [exact Hserve |].
    apply accepted_locks in Hh as [Hout Hst0]. rewrite Hlocks, Hst0.
    apply set_eq. intros x.
    rewrite elem_of_difference, elem_of_union, elem_of_singleton.
    split; [tauto |]. intros Hx. split; [tauto |]. congruence.
Qed.

(** X3.  Whatever the request and whatever the upstream does, the call ends
    and leaves the lock set exactly as it found it: a lock taken on
    admission is released on every path (refusal, failure before or during
    the stream, normal end), and a busy session stays locked by the call that
    holds it. *)
Theorem serve_restores_locks body up st :
  exists st1 r,
    serve body up st = Some (st1, r)
    /\ sessionsInProcess st1 = sessionsInProcess st
    /\ isLocked (currentSessionId body) st1 = isLocked (currentSessionId body) st.
Proof.
  destruct (serve_locks body up st) as (st1 & r & Hserve & Hlocks).
  exists st1, r. split; [exact Hserve |]. split; [exact Hlocks |].
  unfold isLocked. by rewrite Hlocks.
Qed.

(** X4.  Every response is finished, and has one of two shapes: a single
    JSON error document under status 429, 400 or 500, or an event stream
    under status 200 whose body is a run of [data:] frames closed by one last
    frame, the [[DONE]] frame or an error event. *)
Theorem serve_response_shape body up st :
  exists st1 r,
    serve body up st = Some (st1, r)
    /\ headersSent r = true
    /\ writableEnded r = true
    /\ ((exists code text,
           is_json_error code text r /\ (code = 429 \/ code = 400 \/ code = 500))
        \/ (statusCode r = 200
            /\ headers r = event_stream_headers
            /\ exists texts final,
                 written r = map data_frame texts ++ [final]
                 /\ (final = done_frame \/ exists text, final = error_frame text))).
Proof.
  destruct (handler body st) as [st0 [r | f]] eqn:Hh.
  - exists st0, r. split; [by apply serve_completed |].
    apply completed_on_arrival in Hh as (_ & code & text & -> & Hcode).
    split_and!; [reflexivity .. |]. left. exists code, text.
    split; [apply is_json_error_intro | exact Hcode].
  - destruct (accepted_response body up st st0 f Hh)
      as (st1 & r & texts & final & Hserve & _ & Hs & Hhd & Hsent & Hend & Hw & Hup).
    exists st1, r. split_and!; try done. right. split_and!; try done.
    exists texts, final. split; [exact Hw |].
    destruct up as [e | chunks fin].
    + right. destruct Hup as [_ ->]. by eexists.
    + destruct (stream_failure chunks fin).
      * right. destruct Hup as [_ ->]. by eexists.
      * left. by destruct Hup as [_ ->].
Qed.

(** X5.  A stream that fails after the request was accepted, because it
    breaks or because a chunk makes the loop body throw, is answered in band:
    the frames of the deltas received before the failure, then one error
    event carrying the text of the exception (or the fallback text), under
    status 200; the chunks after the failure are not forwarded. *)
Theorem failed_stream_frames body chunks fin e st :
  accepted body st = true ->
  stream_failure chunks fin = Some e ->
  exists st1 r,
    serve body (CreateResolves chunks fin) st = Some (st1, r)
    /\ statusCode r = 200
    /\ written r
       = map data_frame (deltas (before_failure chunks))
         ++ [error_frame (or_default (error_message e) stream_error_text)]
    /\ writableEnded r = true
    /\ (currentSessionId body ∉ sessionsInProcess st1).
Proof.
  intros Hacc Hfail. apply accepted_true in Hacc as (st0 & f & Hh).
  destruct (accepted_response body (CreateResolves chunks fin) st st0 f Hh)
    as (st1 & r & texts & final & Hserve & Hlocks & Hs & _ & _ & Hend & Hw & Hup).
  rewrite Hfail in Hup. destruct Hup as [-> ->].
  exists st1, r. split_and!; try done.
  rewrite Hlocks, elem_of_difference, elem_of_singleton. tauto.
Qed.

Lemma failed_stream_frames_witness :
  let body := mkBody (JsString (lit "hola")) (Some (lit "s1")) in
  let chunks :=
    [text_chunk (lit "El"); text_chunk (lit " saldo"); mkChunk (Some [None]);
     text_chunk (lit " es cero.")] in
  let e := TypeError "Cannot read properties of null (reading 'delta')" in
  (accepted body initial_state = true
   /\ stream_failure chunks EndsNormally = Some e)
  /\ exists st1 r,
       serve body (CreateResolves chunks EndsNormally) initial_state = Some (st1, r)
       /\ statusCode r = 200
       /\ written r
          = map data_frame (deltas (before_failure chunks))
            ++ [error_frame (or_default (error_message e) stream_error_text)]
       /\ writableEnded r = true
       /\ (currentSessionId body ∉ sessionsInProcess st1).
Proof.
  intros body chunks e.
  assert (accepted body initial_state = true) as H1 by (vm_compute; reflexivity).
  assert (stream_failure chunks EndsNormally = Some e) as H2
    by (vm_compute; reflexivity).
  split; [by split |].
  exact (failed_stream_frames body chunks EndsNormally e initial_state H1 H2).
Defined.

End OutcomeExtras.

Section SessionExtras.

Implicit Types (st : State) (body : Body) (f g : Frame) (chunks : list Chunk).

(** X8.  The status of the response is settled by the request and the state
    it arrives in, by the handler's guards in their order; nothing the
    upstream does afterwards changes it. *)
Theorem status_decided_on_arrival body up st :
  exists st1 r,
    serve body up st = Some (st1, r)
    /\ statusCode r = status_of body st.
Proof.
  unfold status_of.
  destruct (decide (currentSessionId body ∈ sessionsInProcess st)) as [Hin | Hout].
  { apply isLocked_true in Hin as Hl. rewrite Hl.
    eexists _, _. split; [apply serve_completed; by apply handler_busy | reflexivity]. }
  apply isLocked_false in Hout as Hl. rewrite Hl.
  destruct (truthy (message body)) eqn:Htruthy; cbn [negb].
  2:{ eexists _, _.
      split; [apply serve_completed; by apply handler_no_message | reflexivity]. }
  destruct (message body) as [| | b | n | s |] eqn:Hm; try discriminate Htruthy.
  1,2,4: eexists _, _;
    (split; [apply serve_completed, handler_not_a_string;
             [done | by rewrite Hm | by rewrite Hm] | reflexivity]).
  assert (s <> []) as Hs by (by destruct s).
  destruct (decide (chatMemory_get (currentSessionId body) st = Some Inherited))
    as [Hinh | Hown].
  - rewrite Hinh. eexists _, _.
    split; [apply serve_completed; by eapply handler_inherited | reflexivity].
  - destruct (handler_accepts body st s Hout Hm Hs Hown) as (st0 & l & _ & Hh).
    destruct (accepted_response body up st st0 _ Hh)
      as (st1 & r & _ & _ & Hserve & _ & Hstatus & _).
    exists st1, r. split; [exact Hserve |]. rewrite Hstatus.
    by destruct (chatMemory_get (currentSessionId body) st) as [[l0 |] |].
Qed.

(** The store an accepted request leaves: the entries of [chatMemory] are
    those the handler found or made on arrival. *)
Lemma accepted_final_state body up st st0 f :
  handler body st = (st0, Suspended f) ->
  exists st1 r,
    serve body up st = Some (st1, r)
    /\ chatMemory st1 = chatMemory st0
    /\ (well_formed st0 -> well_formed st1)
    /\ (well_formed st0 ->
        forall k, k <> currentSessionId body -> getHistory k st1 = getHistory k st0).
Proof.
  intros Hh. apply handler_suspends_at_create in Hh as Hat.
  pose proof (accepted_frame _ _ _ _ Hh) as (_ & s & l & _ & _ & Hkey & _ & _ & Hf).
  destruct up as [e | chunks fin].
  - exists (fst (fail e f st0)), (snd (fail e f st0)).
    split; [erewrite serve_rejected by done; by destruct (fail e f st0) |].
    by split_and!.
  - rewrite (serve_resolved _ _ _ _ _ _ Hh Hat), after_loop_outcome.
    destruct (stream_failure chunks fin) as [e |].
    + set (g := forward_all _ _).
      exists (fst (fail e g st0)), (snd (fail e g st0)).
      split; [by destruct (fail e g st0) |]. by split_and!.
    + pose proof (stream_frame_fields body st st0 f (deltas chunks) Hh)
        as (Hsid & Hsh & _).
      set (g := forward_all _ _) in *.
      exists (fst (complete g st0)), (snd (complete g st0)).
      split; [by destruct (complete g st0) |].
      rewrite complete_state. split_and!; [reflexivity | |].
      * intros Hwf. auto with relay_state.
      * intros Hwf k Hk. rewrite <- complete_state.
        apply complete_history_other; [exact Hwf | | congruence].
        rewrite Hsid, Hsh, Hf. exact Hkey.
Qed.



(** X2.  The conversation carries over: after an exchange that completed,
    the next request of the session that is accepted sends the system
    prompt, the history as it was, the stored exchange, and its own sanitized
    message, in this order. *)
Theorem next_request_carries_exchange body1 s1 chunks body2 s2 st :
  well_formed st ->
  accepted body1 st = true ->
  message body1 = JsString s1 ->
  ends_cleanly (CreateResolves chunks EndsNormally) = true ->
  currentSessionId body2 = currentSessionId body1 ->
  message body2 = JsString s2 -> s2 <> [] ->
  exists st1 r st2 f,
    serve body1 (CreateResolves chunks EndsNormally) st = Some (st1, r)
    /\ handler body2 st1 = (st2, Suspended f)
    /\ messagesForTogether f
       = mkMessage system systemPrompt
         :: getHistory (currentSessionId body1) st
         ++ [mkMessage user (cleanUserMessage s1);
             mkMessage assistant (trim (concat (deltas chunks)));
             mkMessage user (cleanUserMessage s2)].
Proof.
  intros Hwf Hacc Hm1 Hok Hsame Hm2 Hs2.
  destruct (success_history body1 s1 chunks st Hwf Hacc Hm1 Hok)
    as (st1 & r & Hserve & _ & Hhist).
  apply accepted_true in Hacc as (st0 & f0 & Hh).
  destruct (accepted_final_state body1 (CreateResolves chunks EndsNormally) st st0 f0 Hh)
    as (st1' & r' & Hserve' & Hmem & _).
  rewrite Hserve in Hserve'. injection Hserve' as <- <-.
  destruct (serve_locks body1 (CreateResolves chunks EndsNormally) st)
    as (st1' & r' & Hserve' & Hlocks).
  rewrite Hserve in Hserve'. injection Hserve' as <- <-.
  pose proof (accepted_frame _ _ _ _ Hh) as (Hout & _ & l & _ & _ & Hkey & _).
  assert (currentSessionId body2 ∉ sessionsInProcess st1) as Hout2
    by (by rewrite Hsame, Hlocks).
  assert (chatMemory_get (currentSessionId body2) st1 <> Some Inherited) as Hown.
  { unfold chatMemory_get. by rewrite Hsame, Hmem, Hkey. }
  destruct (handler_accepts body2 st1 s2 Hout2 Hm2 Hs2 Hown) as (st2 & l2 & _ & Hh2).
  exists st1, r, st2. eexists. split; [exact Hserve |]. split; [exact Hh2 |].
  pose proof (accepted_frame _ _ _ _ Hh2) as (_ & s' & l' & Hm' & _ & _ & _ & _ & Hf).
  rewrite Hm2 in Hm'. injection Hm' as <-. rewrite Hf. cbn [messagesForTogether].
  rewrite buildMessages_eq, Hsame, Hhist, <- app_assoc. reflexivity.
Qed.

Lemma next_request_carries_exchange_witness :
  let body1 := mkBody (JsString (lit "Usuario: hola")) None in
  let body2 := mkBody (JsString (lit "saldo @bot")) (Some (lit "default")) in
  let chunks := [text_chunk (lit "Buenas "); text_chunk (lit "tardes. ")] in
  (well_formed initial_state
   /\ accepted body1 initial_state = true
   /\ message body1 = JsString (lit "Usuario: hola")
   /\ ends_cleanly (CreateResolves chunks EndsNormally) = true
   /\ currentSessionId body2 = currentSessionId body1
   /\ message body2 = JsString (lit "saldo @bot")
   /\ lit "saldo @bot" <> [])
  /\ exists st1 r st2 f,
       serve body1 (CreateResolves chunks EndsNormally) initial_state = Some (st1, r)
       /\ handler body2 st1 = (st2, Suspended f)
       /\ messagesForTogether f
          = mkMessage system systemPrompt
            :: getHistory (currentSessionId body1) initial_state
            ++ [mkMessage user (cleanUserMessage (lit "Usuario: hola"));
                mkMessage assistant (trim (concat (deltas chunks)));
                mkMessage user (cleanUserMessage (lit "saldo @bot"))].
Proof.
  intros body1 body2 chunks.
  assert (accepted body1 initial_state = true) as H1 by (vm_compute; reflexivity).
  assert (ends_cleanly (CreateResolves chunks EndsNormally) = true) as H2
    by (vm_compute; reflexivity).
  assert (currentSessionId body2 = currentSessionId body1) as H3
    by (vm_compute; reflexivity).
  assert (lit "saldo @bot" <> []) as H4 by (vm_compute; discriminate).
  split; [split_and!; try done; apply well_formed_initial |].
  exact (next_request_carries_exchange body1 (lit "Usuario: hola") chunks body2
           (lit "saldo @bot") initial_state well_formed_initial H1 eq_refl H2 H3
           eq_refl H4).
Defined.



End SessionExtras.

(** ** Invariants of the server *)

Section ServerExtras.

Implicit Types (st : State) (body : Body) (f g : Frame) (sys : System).


Lemma accepted_session body st st0 f :
  handler body st = (st0, Suspended f) ->
  frame_sessionId f = currentSessionId body
  /\ exists s, cleanedMessage f = cleanUserMessage s.
Proof.
  intros Hh. apply accepted_frame in Hh as (_ & s & l & _ & _ & _ & _ & _ & ->).
  split; [reflexivity | by exists s].
Qed.

Lemma resume_suspended ev f st st1 f1 :
  resume ev f st = Some (st1, Suspended f1) ->
  st1 = st
  /\ frame_sessionId f1 = frame_sessionId f
  /\ cleanedMessage f1 = cleanedMessage f.
Proof.
  unfold resume. destruct (suspended_at f), ev as [| e | chunk |]; try discriminate.
  - by intros [= <- <-].
  - destruct (chunk_content chunk) as [[text |] | e]; try discriminate.
    + by intros [= <- <-].
    + by intros [= <- <-].
Qed.







Lemma sanitized_clean s : sanitized (cleanUserMessage s).
Proof.
  split.
  - unfold cleanUserMessage. apply trim_idempotent.
  - unfold cleanUserMessage. apply trim_no_mention, remove_mentions_no_mention.
Qed.

Lemma tidy_initial : tidy initial_system.
Proof.
  split.
  - intros l h. cbn. by destruct l.
  - intros f Hf. by apply elem_of_nil in Hf.
Qed.

Lemma tidy_act a sys sys1 :
  tidy sys -> act a sys = Some sys1 -> tidy sys1.
Proof.
  intros [Harr Hcalls]. destruct a as [body | i ev]; cbn [act].
  - destruct (handler body (store sys)) as [st [r | f]] eqn:Hh; intros [= <-].
    + apply completed_on_arrival in Hh as [-> _]. by split.
    + apply accepted_session in Hh as Hs. destruct Hs as [_ [s Hs]].
      destruct (handler_cases body (store sys)) as [[_ H1] | [[_ H1] | [_ H1]]].
      { congruence. }
      { destruct H1 as (text & code & H1 & _). congruence. }
      destruct H1 as (s0 & st1 & l & _ & _ & Hentry & H1). rewrite H1 in Hh.
      injection Hh as -> _.
      apply session_entry_array in Hentry as (_ & _ & _ & Hstore).
      split; cbn [store calls].
      * destruct Hstore as [[Ha _] | (_ & _ & Ha & _)]; rewrite Ha; cbn [lock arrays].
        -- exact Harr.
        -- intros l0 h Hl0. apply lookup_app_Some in Hl0 as [Hl0 | [_ Hl0]].
           ++ by eapply Harr.
           ++ apply list_lookup_singleton_Some in Hl0 as [_ <-]. constructor.
      * intros g Hg. apply elem_of_app in Hg as [Hg | Hg]; [by apply Hcalls |].
        apply list_elem_of_singleton in Hg as ->. rewrite Hs. apply sanitized_clean.
  - destruct (calls sys !! i) as [f |] eqn:Hi; [| discriminate].
    assert (sanitized (cleanedMessage f)) as Hf
      by (by eapply Hcalls, list_elem_of_lookup_2).
    destruct (resume ev f (store sys)) as [[st [r | f1]] |] eqn:Hr;
      [| | discriminate]; intros [= <-].
    + split; cbn [store calls].
      2:{ intros g Hg. apply list_elem_of_delete_inv in Hg. by apply Hcalls. }
      apply resume_cases in Hr
        as [(f1 & [=] & _) | [(r1 & _ & ->) | (r1 & _ & _ & ->)]].
      * exact Harr.
      * rewrite complete_state. cbn [unlock push arrays]. intros l h.
        destruct (decide (sessionHistory f = l)) as [<- | Hne].
        -- rewrite !list_lookup_alter_eq.
           destruct (arrays (store sys) !! sessionHistory f) as [h0 |] eqn:Hl;
             [| discriminate].
           cbn [fmap option_fmap option_map]. intros [= <-].
           destruct Hf as [Htrim Hno].
           repeat apply Forall_app_2; [by eapply Harr | |];
             apply Forall_singleton; split_and!; try done.
           cbn [content]. apply trim_idempotent.
        -- rewrite !list_lookup_alter_ne by exact Hne. apply Harr.
    + apply resume_suspended in Hr as (-> & _ & Hcl).
      split; cbn [store calls]; [exact Harr |].
      intros g Hg. apply elem_of_insert_inv in Hg as [-> | Hg]; [| by apply Hcalls].
      by rewrite Hcl.
Qed.

Lemma tidy_reachable sys : reachable sys -> tidy sys.
Proof.
  intros [actions Hrun]. revert Hrun. generalize tidy_initial.
  generalize initial_system. induction actions as [| a actions IH];
    intros sys0 Ht; cbn [run].
  - by intros [= <-].
  - destruct (act a sys0) as [sys2 |] eqn:Ha; [| discriminate].
    apply IH. by eapply tidy_act.
Qed.

(** X12.  In every state the server can reach, every stored turn is a user
    or an assistant turn (the system prompt is never stored), its content has
    no white space at either end, and a stored user turn contains no
    mention. *)
Theorem stored_turns_are_tidy sys key turn :
  reachable sys ->
  turn ∈ getHistory key (store sys) ->
  role turn <> system
  /\ trim (content turn) = content turn
  /\ (role turn = user -> has_mention (content turn) = false).
Proof.
  intros Hreach Hturn. apply tidy_reachable in Hreach as [Harr _].
  unfold getHistory in Hturn.
  destruct (chatMemory (store sys) !! key) as [l |];
    [| by apply elem_of_nil in Hturn].
  destruct (arrays (store sys) !! l) as [h |] eqn:Hl;
    [| by apply elem_of_nil in Hturn].
  cbn [default] in Hturn. apply Harr in Hl.
  rewrite Forall_forall in Hl. by apply Hl.
Qed.

Lemma stored_turns_are_tidy_witness :
  let b1 := mkBody (JsString (lit "  Usuario: hola @bob  ")) (Some (lit "s1")) in
  let actions :=
    [ Request b1; Deliver 0 Resolved; Deliver 0 (Yielded (text_chunk (lit " El saldo ")));
      Deliver 0 Ended ] in
  let sys := default initial_system (run actions initial_system) in
  let turn := mkMessage user (lit "hola") in
  (reachable sys /\ turn ∈ getHistory (lit "s1") (store sys))
  /\ role turn <> system
  /\ trim (content turn) = content turn
  /\ (role turn = user -> has_mention (content turn) = false).
Proof.
  intros b1 actions sys turn.
  assert (reachable sys) as Hreach by (exists actions; vm_compute; reflexivity).
  assert (turn ∈ getHistory (lit "s1") (store sys)) as Hturn
    by (apply (list_elem_of_lookup_2 _ 0%nat); vm_compute; reflexivity).
  split; [by split |].
  exact (stored_turns_are_tidy sys (lit "s1") turn Hreach Hturn).
Defined.

Lemma run_app actions1 actions2 sys :
  run (actions1 ++ actions2) sys
  = match run actions1 sys with
    | Some sys1 => run actions2 sys1
    | None => None
    end.
Proof.
  revert sys. induction actions1 as [| a actions1 IH]; intros sys; [reflexivity |].
  cbn [run app]. destruct (act a sys); [apply IH | reflexivity].
Qed.

Lemma run_history actions sys sys1 key :
  coherent sys -> run actions sys = Some sys1 ->
  getHistory key (store sys) `prefix_of` getHistory key (store sys1).
Proof.
  revert sys. induction actions as [| a actions IH]; intros sys Hc; cbn [run].
  - by intros [= <-].
  - destruct (act a sys) as [sys2 |] eqn:Ha; [| discriminate]. intros Hrun.
    transitivity (getHistory key (store sys2)).
    + destruct (act_history a sys sys2 key Hc Ha) as [-> | (u & v & ->)]; [done |].
      by apply prefix_app_r.
    + apply IH; [by eapply coherent_act | exact Hrun].
Qed.

(** X13.  Histories are append-only: whatever the server does after a state
    it has reached, the history a session had then is a prefix of the history
    it has later, so a stored turn is never changed, removed or moved. *)
Theorem histories_only_grow actions sys sys1 key :
  reachable sys ->
  run actions sys = Some sys1 ->
  reachable sys1
  /\ getHistory key (store sys) `prefix_of` getHistory key (store sys1).
Proof.
  intros Hreach Hrun. split.
  - destruct Hreach as [actions0 Hrun0]. exists (actions0 ++ actions).
    by rewrite run_app, Hrun0.
  - eapply run_history; [by apply coherent_reachable | exact Hrun].
Qed.

Lemma histories_only_grow_witness :
  let b1 := mkBody (JsString (lit "hola")) (Some (lit "s1")) in
  let exchange :=
    [ Request b1; Deliver 0 Resolved; Deliver 0 (Yielded (text_chunk (lit "Buenas")));
      Deliver 0 Ended ] in
  let sys := default initial_system (run exchange initial_system) in
  let sys1 := default initial_system (run exchange sys) in
  (reachable sys /\ run exchange sys = Some sys1
   /\ length (getHistory (lit "s1") (store sys)) = 2%nat
   /\ length (getHistory (lit "s1") (store sys1)) = 4%nat)
  /\ reachable sys1
  /\ getHistory (lit "s1") (store sys) `prefix_of` getHistory (lit "s1") (store sys1).
Proof.
  intros b1 exchange sys sys1.
  assert (reachable sys) as Hreach by (exists exchange; vm_compute; reflexivity).
  assert (run exchange sys = Some sys1) as Hrun by (vm_compute; reflexivity).
  split; [split_and!; try done; vm_compute; reflexivity |].
  exact (histories_only_grow exchange sys sys1 (lit "s1") Hreach Hrun).
Defined.

End ServerExtras.

(** ** Frames on the wire *)

Section FrameExtras.

Implicit Types (s text : js_string) (c d : N).

Lemma no_line_break_app s1 s2 :
  no_line_break (s1 ++ s2) = no_line_break s1 && no_line_break s2.
Proof. apply forallb_app. Qed.

Lemma no_line_break_big c : 32 <= c -> negb ((c =? 10) || (c =? 13)) = true.
Proof.
  intros Hc. destruct (c =? 10) eqn:H10; [apply N.eqb_eq in H10; lia |].
  destruct (c =? 13) eqn:H13; [apply N.eqb_eq in H13; lia | reflexivity].
Qed.

Lemma hex_digit_big d : 32 <= hex_digit d.
Proof. unfold hex_digit. destruct (d <? 10); lia. Qed.

Lemma unicode_escape_no_line_break c : no_line_break (unicode_escape c) = true.
Proof.
  unfold unicode_escape, no_line_break. cbn [forallb].
  rewrite !no_line_break_big by first [apply hex_digit_big | lia]. reflexivity.
Qed.

Lemma quote_unit_no_line_break c : no_line_break (quote_unit c) = true.
Proof.
  unfold quote_unit.
  destruct (c =? 8); [reflexivity |]. destruct (c =? 9); [reflexivity |].
  destruct (c =? 10) eqn:H10; [reflexivity |].
  destruct (c =? 12); [reflexivity |].
  destruct (c =? 13) eqn:H13; [reflexivity |].
  destruct (c =? 34); [reflexivity |]. destruct (c =? 92); [reflexivity |].
  destruct (c <? 32); [apply unicode_escape_no_line_break |].
  destruct (is_high_surrogate c || is_low_surrogate c);
    [apply unicode_escape_no_line_break |].
  unfold no_line_break. cbn [forallb]. by rewrite H10, H13.
Qed.

Lemma surrogate_big c :
  is_high_surrogate c = true \/ is_low_surrogate c = true -> 32 <= c.
Proof.
  unfold is_high_surrogate, is_low_surrogate.
  intros [H | H]; apply andb_true_iff in H as [H _]; apply N.leb_le in H; lia.
Qed.

(** [JSON.stringify] writes a string on one line. *)
Lemma quote_units_no_line_break s : no_line_break (quote_units s) = true.
Proof.
  assert (forall n s, (length s <= n)%nat -> no_line_break (quote_units s) = true) as Hn.
  { clear s. induction n as [| n IH]; intros s Hlen.
    - destruct s; [reflexivity | cbn [length] in Hlen; lia].
    - destruct s as [| c s]; [reflexivity |]. cbn [length] in Hlen.
      cbn [quote_units]. destruct (is_high_surrogate c) eqn:Hc.
      + destruct s as [| d s]; [apply quote_unit_no_line_break |].
        destruct (is_low_surrogate d) eqn:Hd.
        * change (no_line_break (c :: d :: quote_units s))
            with (negb ((c =? 10) || (c =? 13))
                  && (negb ((d =? 10) || (d =? 13)) && no_line_break (quote_units s))).
          rewrite !no_line_break_big by (apply surrogate_big; tauto).
          apply IH. cbn [length] in Hlen. lia.
        * rewrite no_line_break_app, quote_unit_no_line_break. apply IH. lia.
      + rewrite no_line_break_app, quote_unit_no_line_break. apply IH. lia. }
  by eapply Hn.
Qed.

Lemma stringify_singleton_no_line_break key text :
  no_line_break key = true ->
  no_line_break (stringify_singleton key text) = true.
Proof.
  intros Hkey. unfold stringify_singleton, quoteJSONString.
  rewrite !no_line_break_app, Hkey, quote_units_no_line_break. reflexivity.
Qed.

(** X14.  Whatever a delta or an error text contains, line breaks included,
    its frame is one event on the wire: a single [data:] line (after the
    [event: error] line, for an error) that holds no line feed and no
    carriage return, closed by the blank line. *)
Theorem frames_are_single_events text :
  (exists json,
      data_frame text = (lit "data: " ++ json) ++ [10; 10]
      /\ no_line_break (lit "data: " ++ json) = true)
  /\ (exists json,
         error_frame text
         = lit "event: error" ++ [10] ++ (lit "data: " ++ json) ++ [10; 10]
         /\ no_line_break (lit "event: error") = true
         /\ no_line_break (lit "data: " ++ json) = true).
Proof.
  split.
  - exists (stringify_singleton (lit "response") text).
    split; [unfold data_frame; by rewrite <- app_assoc |].
    rewrite no_line_break_app, stringify_singleton_no_line_break;
      vm_compute; reflexivity.
  - exists (stringify_singleton (lit "error") text).
    split; [unfold error_frame; by rewrite <- !app_assoc |].
    split; [vm_compute; reflexivity |].
    rewrite no_line_break_app, stringify_singleton_no_line_break;
      vm_compute; reflexivity.
Qed.

End FrameExtras.

(** ** Failures before the streaming head *)

Section EarlyFailureExtras.

Implicit Types (st : State) (body : Body).

(** X15.  An admitted request whose message is truthy but not a string, or
    whose session id names a property that [chatMemory] inherits (such as
    [toString] or [constructor]), fails before the streaming head is set: it
    is answered with status 500 and a JSON error document carrying the text
    of the [TypeError], whatever the upstream would do, and the state is left
    as it was, the lock released and no entry made for the session. *)
Theorem failure_before_head body up st :
  currentSessionId body ∉ sessionsInProcess st ->
  (truthy (message body) = true /\ forall s, message body <> JsString s)
  \/ (exists s, message body = JsString s /\ s <> []
                /\ chatMemory_get (currentSessionId body) st = Some Inherited) ->
  exists text,
    serve body up st = Some (st, json_error text (status 500 new_response))
    /\ is_json_error 500 text (json_error text (status 500 new_response))
    /\ is_event_stream (json_error text (status 500 new_response)) = false
    /\ (text = lit "msg.replace is not a function"
        \/ text = lit "history is not iterable").
Proof.
  intros Hout [[Htruthy Hns] | (s & Hm & Hs & Hinh)].
  - exists (lit "msg.replace is not a function"). split_and!.
    + apply serve_completed. by apply handler_not_a_string.
    + apply is_json_error_intro.
    + eapply json_error_not_event_stream, is_json_error_intro.
    + by left.
  - exists (lit "history is not iterable"). split_and!.
    + apply serve_completed. by eapply handler_inherited.
    + apply is_json_error_intro.
    + eapply json_error_not_event_stream, is_json_error_intro.
    + by right.
Qed.

Lemma failure_before_head_witness :
  let body := mkBody (JsString (lit "hola")) (Some (lit "constructor")) in
  let up := CreateResolves [text_chunk (lit "El")] EndsNormally in
  ((currentSessionId body ∉ sessionsInProcess initial_state)
   /\ exists s, message body = JsString s /\ s <> []
                /\ chatMemory_get (currentSessionId body) initial_state
                   = Some Inherited)
  /\ exists text,
       serve body up initial_state
       = Some (initial_state, json_error text (status 500 new_response))
       /\ is_json_error 500 text (json_error text (status 500 new_response))
       /\ is_event_stream (json_error text (status 500 new_response)) = false
       /\ (text = lit "msg.replace is not a function"
           \/ text = lit "history is not iterable").
Proof.
  intros body up.
  assert (currentSessionId body ∉ sessionsInProcess initial_state) as H1
    by (apply isLocked_false; vm_compute; reflexivity).
  assert (exists s, message body = JsString s /\ s <> []
                    /\ chatMemory_get (currentSessionId body) initial_state
                       = Some Inherited) as H2.
  { exists (lit "hola"). split_and!;
      [reflexivity | vm_compute; discriminate | vm_compute; reflexivity]. }
  split; [by split |].
  exact (failure_before_head body up initial_state H1 (or_intror H2)).
Defined.

End EarlyFailureExtras.

(** ** A frame determines its delta *)

Section FrameRoundTrip.

Implicit Types (s q text : js_string) (c d : N).

Lemma hex_value_digit d : d < 16 -> hex_value (hex_digit d) = d.
Proof.
  intros Hd. unfold hex_digit, hex_value.
  destruct (d <? 10) eqn:H10.
  - apply N.ltb_lt in H10. destruct (48 + d <? 58) eqn:H; [lia |].
    apply N.ltb_ge in H. lia.
  - apply N.ltb_ge in H10. destruct (87 + d <? 58) eqn:H; [| lia].
    apply N.ltb_lt in H. lia.
Qed.

Lemma hex_digits_value c :
  c < 65536 ->
  4096 * (c / 4096 mod 16) + 256 * (c / 256 mod 16) + 16 * (c / 16 mod 16)
  + c mod 16 = c.
Proof.
  intros H.
  replace (c / 256) with (c / 16 / 16) by (rewrite N.Div0.div_div; reflexivity).
  replace (c / 4096) with (c / 16 / 16 / 16)
    by (rewrite !N.Div0.div_div; reflexivity).
  pose proof (N.div_mod c 16 ltac:(lia)) as E0.
  pose proof (N.mod_lt c 16 ltac:(lia)) as L0.
  pose proof (N.div_mod (c / 16) 16 ltac:(lia)) as E1.
  pose proof (N.mod_lt (c / 16) 16 ltac:(lia)) as L1.
  pose proof (N.div_mod (c / 16 / 16) 16 ltac:(lia)) as E2.
  pose proof (N.mod_lt (c / 16 / 16) 16 ltac:(lia)) as L2.
  pose proof (N.div_mod (c / 16 / 16 / 16) 16 ltac:(lia)) as E3.
  pose proof (N.mod_lt (c / 16 / 16 / 16) 16 ltac:(lia)) as L3.
  generalize dependent (c mod 16). generalize dependent (c / 16 mod 16).
  generalize dependent (c / 16 / 16 mod 16).
  generalize dependent (c / 16 / 16 / 16 mod 16).
  generalize dependent (c / 16 / 16 / 16 / 16).
  generalize dependent (c / 16 / 16 / 16). generalize dependent (c / 16 / 16).
  generalize dependent (c / 16). intros. lia.
Qed.

Lemma unquote_unicode_escape c q :
  c < 65536 ->
  unquote_units (unicode_escape c ++ q) = c :: unquote_units q.
Proof.
  intros Hc. unfold unicode_escape. cbn [app unquote_units].
  change (92 =? 92) with true. change (117 =? 117) with true. cbn iota.
  rewrite !hex_value_digit by (apply N.mod_lt; lia).
  by rewrite hex_digits_value.
Qed.

(** Reading back one escaped code unit. *)
Lemma unquote_quote_unit c q :
  c < 65536 ->
  unquote_units (quote_unit c ++ q) = c :: unquote_units q.
Proof.
  intros Hc. unfold quote_unit.
  destruct (c =? 8) eqn:H8; [apply N.eqb_eq in H8; by subst |].
  destruct (c =? 9) eqn:H9; [apply N.eqb_eq in H9; by subst |].
  destruct (c =? 10) eqn:H10; [apply N.eqb_eq in H10; by subst |].
  destruct (c =? 12) eqn:H12; [apply N.eqb_eq in H12; by subst |].
  destruct (c =? 13) eqn:H13; [apply N.eqb_eq in H13; by subst |].
  destruct (c =? 34) eqn:H34; [apply N.eqb_eq in H34; by subst |].
  destruct (c =? 92) eqn:H92; [apply N.eqb_eq in H92; by subst |].
  destruct (c <? 32); [by apply unquote_unicode_escape |].
  destruct (is_high_surrogate c || is_low_surrogate c);
    [by apply unquote_unicode_escape |].
  cbn [app unquote_units]. by rewrite H92.
Qed.

Lemma surrogate_not_backslash c :
  is_high_surrogate c = true \/ is_low_surrogate c = true -> (c =? 92) = false.
Proof.
  intros H. apply surrogate_big in H as Hbig. apply N.eqb_neq. intros ->.
  destruct H as [H | H]; vm_compute in H; discriminate.
Qed.

(** [unquote_units] reads back what [quote_units] wrote. *)
Lemma unquote_quote_units s :
  code_units s -> unquote_units (quote_units s) = s.
Proof.
  assert (forall n s, (length s <= n)%nat -> code_units s ->
            unquote_units (quote_units s) = s) as Hn.
  { clear s. induction n as [| n IH]; intros s Hlen Hs.
    - destruct s; [reflexivity | cbn [length] in Hlen; lia].
    - destruct s as [| c s]; [reflexivity |]. cbn [length] in Hlen.
      apply Forall_cons in Hs as [Hc Hs]. cbn [quote_units].
      destruct (is_high_surrogate c) eqn:Hhi.
      + destruct s as [| d s].
        * rewrite <- (app_nil_r (quote_unit c)).
          by rewrite unquote_quote_unit.
        * apply Forall_cons in Hs as Hds. destruct Hds as [Hd Hs'].
          destruct (is_low_surrogate d) eqn:Hlo.
          -- cbn [unquote_units].
             rewrite (surrogate_not_backslash c), (surrogate_not_backslash d) by tauto.
             rewrite IH; [reflexivity | cbn [length] in Hlen; lia | exact Hs'].
          -- rewrite unquote_quote_unit by exact Hc.
             rewrite IH; [reflexivity | lia | exact Hs].
      + rewrite unquote_quote_unit by exact Hc.
        rewrite IH; [reflexivity | lia | exact Hs]. }
  by eapply Hn.
Qed.

Lemma quote_units_inj a b :
  code_units a -> code_units b -> quote_units a = quote_units b -> a = b.
Proof.
  intros Ha Hb H. rewrite <- (unquote_quote_units a Ha), <- (unquote_quote_units b Hb).
  by rewrite H.
Qed.

Lemma data_frame_split text :
  data_frame text
  = (lit "data: " ++ lit "{" ++ [34] ++ lit "response" ++ [34] ++ lit ":" ++ [34])
    ++ quote_units text ++ ([34] ++ lit "}" ++ [10; 10]).
Proof.
  unfold data_frame, stringify_singleton, quoteJSONString.
  by rewrite <- !app_assoc.
Qed.

(** X16.  A frame determines its delta: two texts of code units with the
    same frame are the same text, so the escaping of quotes, backslashes,
    control characters and lone surrogates loses nothing. *)
Theorem frame_determines_delta a b :
  code_units a -> code_units b ->
  data_frame a = data_frame b -> a = b.
Proof.
  intros Ha Hb H. rewrite !data_frame_split in H.
  apply app_inv_head, app_inv_tail in H. by apply quote_units_inj.
Qed.

Lemma frame_determines_delta_witness :
  let a := [69; 108; 34; 10; 55357; 56832; 55357] in
  let b := lit "El" ++ [34; 10; 55357; 56832; 55357] in
  (code_units a /\ code_units b /\ data_frame a = data_frame b)
  /\ a = b.
Proof.
  intros a b.
  assert (code_units a) as Ha by (unfold code_units, a; repeat constructor).
  assert (code_units b) as Hb by (unfold code_units, b; repeat constructor).
  assert (data_frame a = data_frame b) as H by (vm_compute; reflexivity).
  split; [by split_and! |].
  exact (frame_determines_delta a b Ha Hb H).
Defined.

End FrameRoundTrip.
